(** * fix_error_codes.py: renumbering duplicated error codes

    A shallow embedding of [packages/core/fix_error_codes.py].  The script
    reads a text file, locates every occurrence of its regular expression
    (group 1: \s+ \w+ \s* = \s* ; group 2: \d+ ; then a comma), walks the
    occurrences in order while keeping a dictionary [seen_codes] and a
    counter [next_code], splices a fresh number over every repeated code that
    is at least 2134, and writes the text back.

    The text is a Python [str]; it is modelled as a list of characters of
    Rocq's 8-bit [ascii] type, read as the code points U+0000 to U+00FF.  The
    character classes are those of Python's [re] module for [str] patterns on
    that range.  Python integers are unbounded and are modelled by [N].

    The model covers the script between [f.read()] and [f.write(content)]:
    the input is the string that [read] returns and the output the string
    handed to [write].  Decoding, newline translation, failures of the file
    system and the interpreter's memory are outside it.

    CPython limits the length of conversions between integers and decimal
    text (4300 digits unless configured otherwise).  The loop is given
    twice: [fix_error_codes] is the script with the limit lifted, and
    [fix_error_codes_limited] the script under the default limit, where
    [int] and [str] may raise [ValueError].  The two agree on every text
    whose conversions stay within the limit; statements about
    [fix_error_codes] are statements about such runs, and the number they
    call printed is the final value of [next_code]. *)

From Stdlib Require Import Ascii String NArith DecimalString DecimalN.
From stdpp Require Import gmap list strings sorting.

Abbreviation text := (list ascii).

(** Writes a text as a string literal. *)
Definition txt (s : string) : text := list_ascii_of_string s.

(** * Part I: the program *)

(** ** Character classes of [re] on [str] patterns *)

Module PyChar.

Definition ord (c : ascii) : N := N_of_ascii c.

Definition between (lo hi : N) (c : ascii) : bool :=
  ((lo <=? ord c) && (ord c <=? hi))%N.

(** [\s]: tab, line feed, vertical tab, form feed, carriage return, the
    four separators U+001C..U+001F, space, U+0085 and U+00A0. *)
Definition is_space (c : ascii) : bool :=
  between 9 13 c || between 28 32 c || between 133 133 c || between 160 160 c.

(** [\d]: the decimal digits; below U+0100 these are ['0'..'9'] only. *)
Definition is_digit (c : ascii) : bool := between 48 57 c.

(** [\w]: alphanumeric characters and the underscore. *)
Definition is_word (c : ascii) : bool :=
  is_digit c || between 65 90 c || between 95 95 c || between 97 122 c
  || between 170 170 c || between 178 179 c || between 181 181 c
  || between 185 186 c || between 188 190 c || between 192 214 c
  || between 216 246 c || between 248 255 c.

(** The value of a decimal digit. *)
Definition digit_value (c : ascii) : N := (ord c - 48)%N.

End PyChar.

(** ** The regular expression and its backtracking matcher *)

Module Re.

Inductive atom := Space | Word | Digit | Lit (c : ascii).

(** [x], [x*] and [x+]; both repetitions are greedy. *)
Inductive quant := One | Star | Plus.

Definition item : Type := atom * quant.

Definition atom_ok (a : atom) (c : ascii) : bool :=
  match a with
  | Space => PyChar.is_space c
  | Word => PyChar.is_word c
  | Digit => PyChar.is_digit c
  | Lit d => bool_decide (c = d)
  end.

(** A greedy repetition: take as many characters as possible, then give
    them back one at a time until the rest of the pattern, [k], matches.
    The result carries the number of characters the repetition kept. *)
Fixpoint greedy (p : ascii -> bool) (k : text -> option (list nat))
    (s : text) : option (nat * list nat) :=
  let stop := ns ← k s; Some (0, ns) in
  match s with
  | c :: s' =>
      if p c then
        match greedy p k s' with
        | Some (n, ns) => Some (S n, ns)
        | None => stop
        end
      else stop
  | [] => stop
  end.

(** Anchored match of a sequence of items; on success, the number of
    characters each item consumed. *)
Fixpoint match_items (its : list item) (s : text) : option (list nat) :=
  match its with
  | [] => Some []
  | (a, q) :: rest =>
      match q with
      | One =>
          match s with
          | c :: s' =>
              if atom_ok a c then ns ← match_items rest s'; Some (1 :: ns)
              else None
          | [] => None
          end
      | Star =>
          '(n, ns) ← greedy (atom_ok a) (match_items rest) s; Some (n :: ns)
      | Plus =>
          match s with
          | c :: s' =>
              if atom_ok a c then
                '(n, ns) ← greedy (atom_ok a) (match_items rest) s';
                Some (S n :: ns)
              else None
          | [] => None
          end
      end
  end.

(** The pattern of the script: group 1 is \s+ \w+ \s* = \s* , group 2 is
    \d+ , and a literal comma follows. *)
Definition group1 : list item :=
  [(Space, Plus); (Word, Plus); (Space, Star); (Lit "=", One); (Space, Star)].
Definition group2 : list item := [(Digit, Plus)].
Definition comma : list item := [(Lit ",", One)].
Definition pattern : list item := group1 ++ group2 ++ comma.

(** A match object: the string that was searched and the spans of the
    whole match and of the second group. *)
Record rmatch := {
  m_string : text;
  m_start : nat;
  m_end : nat;
  m_start2 : nat;
  m_end2 : nat
}.

Definition mk_match (orig : text) (pos : nat) (lens : list nat) : rmatch :=
  let l1 := sum_list (take (length group1) lens) in
  let l2 := sum_list (take (length group2) (drop (length group1) lens)) in
  {| m_string := orig;
     m_start := pos;
     m_end := pos + sum_list lens;
     m_start2 := pos + l1;
     m_end2 := pos + l1 + l2 |}.

(** [s[i:j]] for non-negative [i] and [j]. *)
Definition slice (i j : nat) (s : text) : text := take (j - i) (drop i s).

(** [match.group(0)] and [match.group(2)]. *)
Definition group0_text (m : rmatch) : text :=
  slice (m_start m) (m_end m) (m_string m).
Definition group2_text (m : rmatch) : text :=
  slice (m_start2 m) (m_end2 m) (m_string m).

(** The left-to-right scan of [re.finditer]: [s] is the part of [orig]
    from offset [pos] on, and [skip] counts the characters still covered
    by the last match.  After a match the scan resumes at its end (one
    character further when the match is empty). *)
Fixpoint scan (orig s : text) (pos skip : nat) : list rmatch :=
  match s with
  | [] =>
      match skip, match_items pattern [] with
      | 0, Some lens => [mk_match orig pos lens]
      | _, _ => []
      end
  | _ :: s' =>
      match skip with
      | S k => scan orig s' (S pos) k
      | 0 =>
          match match_items pattern s with
          | Some lens =>
              mk_match orig pos lens :: scan orig s' (S pos) (pred (sum_list lens))
          | None => scan orig s' (S pos) 0
          end
      end
  end.

(** [list(re.finditer(pattern, content))] *)
Definition finditer (content : text) : list rmatch := scan content content 0 0.

End Re.

Import Re.

(** ** Conversions between integers and decimal text *)

(** [int(s)], with the interpreter's limit on the number of digits lifted
    (the limit is added in [int_limited] below).  The model is exact on
    non-empty runs of decimal digits, the only strings that [\d+] captures;
    on any other string it answers [None], which stands for [ValueError]
    (signs, blanks and underscores, which Python would accept, are never
    passed by the script). *)
Definition int_digits (s : text) : option N :=
  foldl (fun acc c =>
           n ← acc;
           if PyChar.is_digit c then Some (10 * n + PyChar.digit_value c)%N
           else None)
        (Some 0%N) s.

Definition int (s : text) : option N :=
  match s with
  | [] => None
  | _ :: _ => int_digits s
  end.

(** [str(n)] for a non-negative integer, with the same limit lifted (see
    [str_limited] below). *)
Definition str (n : N) : text := txt (NilZero.string_of_uint (N.to_uint n)).

(** ** The renumbering loop *)

Record state := {
  content : text;
  seen_codes : gmap N bool;
  next_code : N
}.

Definition threshold : N := 2134.
Definition start_code : N := 2135.

Definition init (file : text) : state :=
  {| content := file; seen_codes := ∅; next_code := start_code |}.

(** [content[:match.start(2)] + new + content[match.end(2):]]; both slices
    clamp at the end of [c]. *)
Definition splice (c : text) (m : rmatch) (new : text) : text :=
  take (m_start2 m) c ++ new ++ drop (m_end2 m) c.

(** One iteration of [for match in matches]. *)
Definition loop_body (st : state) (m : rmatch) : option state :=
  code ← int (group2_text m);
  if (threshold <=? code)%N then
    match seen_codes st !! code with
    | Some _ =>
        Some {| content := splice (content st) m (str (next_code st));
                seen_codes := seen_codes st;
                next_code := (next_code st + 1)%N |}
    | None =>
        Some {| content := content st;
                seen_codes := <[code := true]> (seen_codes st);
                next_code := if (next_code st <=? code)%N then (code + 1)%N
                             else next_code st |}
    end
  else Some st.

Fixpoint process (ms : list rmatch) (st : state) : option state :=
  match ms with
  | [] => Some st
  | m :: ms' => st' ← loop_body st m; process ms' st'
  end.

(** The whole script as a function of the file's contents: the text written
    back and the number printed in the status line. *)
Definition fix_error_codes (file : text) : option (text * N) :=
  st ← process (finditer file) (init file);
  Some (content st, next_code st).

(** ** Codes carried by the matches *)

(** [int(match.group(2))] *)
Definition code_of (m : rmatch) : option N := int (group2_text m).

Definition codes (ms : list rmatch) : list N := omap code_of ms.

(** The codes at or above the threshold, in order of appearance. *)
Definition qualifying (ms : list rmatch) : list N :=
  filter (λ c, (threshold ≤ c)%N) (codes ms).

Definition qualifying_codes (t : text) : list N := qualifying (finditer t).

(** The number spliced in by the iteration on [m] from state [st], if that
    iteration takes the replacing branch. *)
Definition replacement (st : state) (m : rmatch) : option N :=
  code ← code_of m;
  if (threshold <=? code)%N then
    match seen_codes st !! code with
    | Some _ => Some (next_code st)
    | None => None
    end
  else None.

(** The numbers handed out along the loop, each with the state in which
    it was handed out. *)
Fixpoint handouts (ms : list rmatch) (st : state) : list (N * state) :=
  match ms with
  | [] => []
  | m :: ms' =>
      match loop_body st m with
      | Some st' =>
          match replacement st m with
          | Some v => (v, st) :: handouts ms' st'
          | None => handouts ms' st'
          end
      | None => []
      end
  end.

(** ** The loop as a relation *)

Inductive iteration (m : rmatch) : state → state → Prop :=
  | iter_below st code :
      code_of m = Some code → (code < threshold)%N →
      iteration m st st
  | iter_duplicate st code :
      code_of m = Some code → (threshold ≤ code)%N →
      is_Some (seen_codes st !! code) →
      iteration m st
        {| content := splice (content st) m (str (next_code st));
           seen_codes := seen_codes st;
           next_code := (next_code st + 1)%N |}
  | iter_first_above st code :
      code_of m = Some code → (threshold ≤ code)%N →
      seen_codes st !! code = None → (next_code st ≤ code)%N →
      iteration m st
        {| content := content st;
           seen_codes := <[code := true]> (seen_codes st);
           next_code := (code + 1)%N |}
  | iter_first_below st code :
      code_of m = Some code → (threshold ≤ code)%N →
      seen_codes st !! code = None → (code < next_code st)%N →
      iteration m st
        {| content := content st;
           seen_codes := <[code := true]> (seen_codes st);
           next_code := next_code st |}.

Inductive iterations : list rmatch → state → state → Prop :=
  | iters_nil st : iterations [] st st
  | iters_cons m ms st st' st'' :
      iteration m st st' → iterations ms st' st'' →
      iterations (m :: ms) st st''.

(** A run of the script on [file] writes [out] and prints [n]. *)
Inductive script_run (file out : text) (n : N) : Prop :=
  | script_run_intro st :
      iterations (finditer file) (init file) st →
      out = content st → n = next_code st →
      script_run file out n.

(** ** The loop under the interpreter's limit on decimal conversions *)

(** [sys.int_info.default_max_str_digits].  CPython 3.11 and later, and the
    security releases of 3.7 to 3.10, raise [ValueError] when [int] is given
    more than this many digits, leading zeros included, and when [str] or a
    format would produce more than this many. *)
Definition max_str_digits : nat := 4300.

(** The result of a computation that may raise [ValueError]. *)
Inductive outcome (A : Type) : Type :=
| Returns (a : A)
| ValueError.
Arguments Returns {A} a.
Arguments ValueError {A}.

#[global] Instance outcome_bind : MBind outcome :=
  λ A B f x, match x with Returns a => f a | ValueError => ValueError end.

(** A result of the conversions without the limit, as an outcome. *)
Definition of_option {A : Type} (o : option A) : outcome A :=
  match o with Some a => Returns a | None => ValueError end.

(** [int(s)]: the digits are counted before any is converted. *)
Definition int_limited (s : text) : outcome N :=
  if max_str_digits <? length s then ValueError else of_option (int s).

(** [str(n)] *)
Definition str_limited (n : N) : outcome text :=
  if max_str_digits <? length (str n) then ValueError else Returns (str n).

(** One iteration of [for match in matches]. *)
Definition loop_body_limited (st : state) (m : rmatch) : outcome state :=
  code ← int_limited (group2_text m);
  if (threshold <=? code)%N then
    match seen_codes st !! code with
    | Some _ =>
        new ← str_limited (next_code st);
        Returns {| content := splice (content st) m new;
                   seen_codes := seen_codes st;
                   next_code := (next_code st + 1)%N |}
    | None =>
        Returns {| content := content st;
                   seen_codes := <[code := true]> (seen_codes st);
                   next_code := if (next_code st <=? code)%N then (code + 1)%N
                                else next_code st |}
    end
  else Returns st.

Fixpoint process_limited (ms : list rmatch) (st : state) : outcome state :=
  match ms with
  | [] => Returns st
  | m :: ms' => st' ← loop_body_limited st m; process_limited ms' st'
  end.

(** The text handed to [f.write] and the final value of [next_code], or the
    [ValueError] that ends the run before the file is opened for writing. *)
Definition fix_error_codes_limited (file : text) : outcome (text * N) :=
  st ← process_limited (finditer file) (init file);
  Returns (content st, next_code st).

(** * Part II: specification-side definitions *)

(** ** What the matcher accepts *)

Definition quant_ok (q : quant) (n : nat) : Prop :=
  match q with
  | One => n = 1
  | Star => True
  | Plus => 1 ≤ n
  end.

(** A run of characters is accepted by an item. *)
Definition item_ok (it : item) (ch : text) : Prop :=
  quant_ok it.2 (length ch) ∧ forallb (atom_ok it.1) ch = true.

(** ** The assignment statements the pattern finds *)

Definition all_of (p : ascii → bool) (s : text) : Prop := forallb p s = true.

(** The pieces of one occurrence of the pattern, as the code has it: one or
    more blanks, an identifier, optional blanks, the equals sign, optional
    blanks and a run of decimal digits; the comma follows. *)
Record parts := {
  p_lead : text;
  p_ident : text;
  p_pre_eq : text;
  p_post_eq : text;
  p_digits : text
}.

Definition parts_group1 (p : parts) : text :=
  p_lead p ++ p_ident p ++ p_pre_eq p ++ txt "=" ++ p_post_eq p.

Definition assemble (p : parts) : text :=
  parts_group1 p ++ p_digits p ++ txt ",".

Definition code_parts (p : parts) : Prop :=
  p_lead p ≠ [] ∧ all_of PyChar.is_space (p_lead p) ∧
  p_ident p ≠ [] ∧ all_of PyChar.is_word (p_ident p) ∧
  all_of PyChar.is_space (p_pre_eq p) ∧
  all_of PyChar.is_space (p_post_eq p) ∧
  p_digits p ≠ [] ∧ all_of PyChar.is_digit (p_digits p).

(** The form of the specification: optional leading blanks, an identifier,
    blanks, the equals sign, optional blanks, a decimal integer, a comma. *)
Definition spec_parts (p : parts) : Prop :=
  all_of PyChar.is_space (p_lead p) ∧
  p_ident p ≠ [] ∧ all_of PyChar.is_word (p_ident p) ∧
  p_pre_eq p ≠ [] ∧ all_of PyChar.is_space (p_pre_eq p) ∧
  all_of PyChar.is_space (p_post_eq p) ∧
  p_digits p ≠ [] ∧ all_of PyChar.is_digit (p_digits p).

Definition spec_form (s : text) : Prop := ∃ p, spec_parts p ∧ s = assemble p.

Definition parts_lens (p : parts) : list nat :=
  [length (p_lead p); length (p_ident p); length (p_pre_eq p); 1;
   length (p_post_eq p); length (p_digits p); 1].

(** The pattern after its leading blanks. *)
Definition pattern_rest : list item := List.tl pattern.

(** ** What the scan reports *)

(** [m] is an occurrence of the pattern in [orig] with pieces [p]. *)
Definition located (orig : text) (m : rmatch) (p : parts) : Prop :=
  code_parts p ∧ m_string m = orig ∧
  (∃ pre rest, orig = pre ++ assemble p ++ rest ∧ m_start m = length pre) ∧
  m_start2 m = m_start m + length (parts_group1 p) ∧
  m_end2 m = m_start2 m + length (p_digits p) ∧
  m_end m = m_end2 m + 1.

(** ** The loop and its invariant *)

(** Every code recorded in [seen_codes] is below [next_code]. *)
Definition above_seen (st : state) : Prop :=
  ∀ c, is_Some (seen_codes st !! c) → (c < next_code st)%N.

(** ** Texts used in the examples *)

Definition nl : string := String "010" EmptyString.

(** The text made of the given lines, each ended by a line feed. *)
Definition lines (l : list string) : text :=
  flat_map (λ s, txt s ++ txt nl) l.

Fixpoint starts_with (needle hay : text) : bool :=
  match needle, hay with
  | [], _ => true
  | c :: n, d :: h => bool_decide (c = d) && starts_with n h
  | _ :: _, [] => false
  end.

(** [needle in hay] *)
Fixpoint occurs (needle hay : text) : bool :=
  starts_with needle hay ||
  match hay with
  | [] => false
  | _ :: h => occurs needle h
  end.

Definition collision_input : text :=
  lines [" A = 2134,"; " B = 2134,"; " C = 2135,"].
Definition collision_output : text :=
  lines [" A = 2134,"; " B = 2135,"; " C = 2135,"].

Definition shift_input : text :=
  lines [" A = 2134,"; " B = 000000002134,"; " D = 2134,"; " C = 7,"].
Definition shift_output : text :=
  lines [" A = 2134,"; " B = 2135,"; " D = 2134,"; " C2136,"].

Definition unique_input : text :=
  lines ["    Low = 7,"; "    A = 2134,"; "    B = 2140,"; "    Low2 = 7,"].

(** The two lines of the example: the first assignment after the text
    [ws1], the second after a line feed and the text [ws2], and [ending]
    after the second. *)
Definition two_lines (ws1 ws2 : text) (second : string) (ending : text)
    : text :=
  ws1 ++ txt "A = 2134," ++ txt nl ++ ws2 ++ txt second ++ ending.

(** Whitespace of several kinds, for the example with two lines. *)
Definition mixed_indent : text := ["009"; "160"; "013"]%char.
Definition mixed_gap : text := ["012"; "011"; "133"; "028"; " "]%char.
Definition crlf : text := ["013"; "010"]%char.

(** Texts whose conversions exceed the limit: an integer of 4301 digits,
    an integer of 4300 zeros and a seven, and the code 10^4300 - 1 followed
    by a repeated code. *)
Definition long_integer_input : text :=
  txt " A = " ++ replicate 4301 "9"%char ++ txt ",".
Definition padded_integer_input : text :=
  txt " A = " ++ replicate 4300 "0"%char ++ txt "7,".
Definition long_replacement_input : text :=
  txt " A = " ++ replicate 4300 "9"%char ++ txt ","
  ++ lines [""; " B = 2134,"; " C = 2134,"].

(** ** Definitions for the further properties *)

(** One step of the left fold of [int]. *)
Definition int_step (acc : option N) (c : ascii) : option N :=
  n ← acc;
  if PyChar.is_digit c then Some (10 * n + PyChar.digit_value c)%N else None.

(** Each renumbered match with the number written over it. *)
Fixpoint replaced (ms : list rmatch) (st : state) : list (rmatch * N) :=
  match ms with
  | [] => []
  | m :: ms' =>
      match loop_body st m with
      | Some st' =>
          match replacement st m with
          | Some v => (m, v) :: replaced ms' st'
          | None => replaced ms' st'
          end
      | None => []
      end
  end.

(** The code each match is left with by the bookkeeping: the number handed
    out when the match is renumbered, its own code otherwise. *)
Fixpoint final_codes (ms : list rmatch) (st : state) : list N :=
  match ms with
  | [] => []
  | m :: ms' =>
      match loop_body st m, code_of m with
      | Some st', Some c =>
          default c (replacement st m) :: final_codes ms' st'
      | _, _ => []
      end
  end.

(** The same spans in another string. *)
Definition rebase (s : text) (m : rmatch) : rmatch :=
  {| m_string := s;
     m_start := m_start m;
     m_end := m_end m;
     m_start2 := m_start2 m;
     m_end2 := m_end2 m |}.

(** Two characters that no item of the pattern tells apart. *)
Definition similar (c d : ascii) : Prop :=
  ∀ it, it ∈ pattern → atom_ok it.1 c = atom_ok it.1 d.

(** The spans of a match lie in this order inside a text of [n]
    characters. *)
Definition span_ok (n : nat) (m : rmatch) : Prop :=
  m_start m ≤ m_start2 m ∧ m_start2 m < m_end2 m ∧ m_end2 m < m_end m
  ∧ m_end m ≤ n.

(** [i] lies in the span of group 2 of [m]. *)
Definition in_digits (i : nat) (m : rmatch) : Prop :=
  m_start2 m ≤ i < m_end2 m.

(** Every number written has as many digits as the integer it replaces. *)
Definition aligned (rs : list (rmatch * N)) : Prop :=
  Forall (λ r, length (str r.2) = m_end2 r.1 - m_start2 r.1) rs.

(** No number handed out on [file] is a qualifying code of [file]. *)
Definition collision_free (file : text) : Prop :=
  Forall (λ r, r.2 ∉ qualifying_codes file)
    (replaced (finditer file) (init file)).

(** The conversions of the loop on [ms] from [st] stay within the limit:
    no integer read and no number written has more than [max_str_digits]
    digits. *)
Definition within_limit (ms : list rmatch) (st : state) : Prop :=
  Forall (λ m, length (group2_text m) ≤ max_str_digits) ms
  ∧ Forall (λ r, length (str r.2) ≤ max_str_digits) (replaced ms st).

Definition repair_input : text :=
  lines ["    A = 2134,"; "    B = 2134,"; "    Low = 7,"; "    C = 2140,";
         "    D = 2140,"].

(** Right-nests every concatenation. *)
Ltac norm_app :=
  repeat first [rewrite <-app_assoc | progress simpl].
Ltac len_app :=
  repeat first [rewrite length_app | progress simpl]; try lia.
Ltac norm_app_in H :=
  repeat first [rewrite <-app_assoc in H | progress simpl in H].

(** * Part III: lemmas *)

(** ** The matcher *)

Section matcher_facts.

Lemma greedy_sound p k s n ns :
  greedy p k s = Some (n, ns) →
  ∃ ch rest, s = ch ++ rest ∧ length ch = n ∧ forallb p ch = true
             ∧ k rest = Some ns.
Proof.
  revert n ns. induction s as [|c s IH]; intros n ns; simpl.
  - destruct (k []) as [ns'|] eqn:K; simpl; [|done].
    intros [= <- <-]. by exists [], [].
  - assert (Hstop : (ns' ← k (c :: s); Some (0, ns')) = Some (n, ns) →
                    ∃ ch rest, c :: s = ch ++ rest ∧ length ch = n
                               ∧ forallb p ch = true ∧ k rest = Some ns).
    { destruct (k (c :: s)) as [ns'|] eqn:K; simpl; [|done].
      intros [= <- <-]. by exists [], (c :: s). }
    destruct (p c) eqn:Pc; [|done].
    destruct (greedy p k s) as [[n' ns']|] eqn:G; [|done].
    intros [= <- <-].
    destruct (IH _ _ eq_refl) as (ch & rest & -> & <- & Hp & Hk).
    exists (c :: ch), rest. simpl. by rewrite Pc, Hp.
Qed.

Lemma greedy_stop p k s : is_Some (k s) → is_Some (greedy p k s).
Proof.
  intros [ns K]. destruct s as [|c s]; simpl.
  - rewrite K. by eexists.
  - destruct (p c); [destruct (greedy p k s) as [[? ?]|]|];
      rewrite ?K; by eexists.
Qed.

Lemma greedy_complete p k ch rest :
  forallb p ch = true → is_Some (k rest) → is_Some (greedy p k (ch ++ rest)).
Proof.
  intros Hp Hk. induction ch as [|c ch IH]; simpl.
  - by apply greedy_stop.
  - simpl in Hp. apply andb_prop in Hp as [Pc Hp]. rewrite Pc.
    destruct (IH Hp) as [[n ns] ->]. by eexists.
Qed.

Lemma match_items_sound its s lens :
  match_items its s = Some lens →
  ∃ chunks rest, s = concat chunks ++ rest ∧ lens = length <$> chunks
                 ∧ Forall2 item_ok its chunks.
Proof.
  revert s lens. induction its as [|[a q] its IH]; intros s lens; simpl.
  - intros [= <-]. by exists [], s.
  - destruct q.
    + destruct s as [|c s]; [done|].
      destruct (atom_ok a c) eqn:Ac; [|done].
      destruct (match_items its s) as [ns|] eqn:M; simpl; [|done].
      intros [= <-]. destruct (IH _ _ M) as (chunks & rest & -> & -> & HF).
      exists ([c] :: chunks), rest. split_and!; [done..|].
      constructor; [|done]. split; [done|]. simpl. by rewrite Ac.
    + destruct (greedy _ _ s) as [[n ns]|] eqn:G; simpl; [|done].
      intros [= <-].
      destruct (greedy_sound _ _ _ _ _ G) as (ch & t & -> & <- & Hp & M).
      destruct (IH _ _ M) as (chunks & rest & -> & -> & HF).
      exists (ch :: chunks), rest. simpl. rewrite <-(assoc_L (++)).
      split_and!; [done..|]. constructor; [|done]. by split.
    + destruct s as [|c s]; [done|].
      destruct (atom_ok a c) eqn:Ac; [|done].
      destruct (greedy _ _ s) as [[n ns]|] eqn:G; simpl; [|done].
      intros [= <-].
      destruct (greedy_sound _ _ _ _ _ G) as (ch & t & -> & <- & Hp & M).
      destruct (IH _ _ M) as (chunks & rest & -> & -> & HF).
      exists ((c :: ch) :: chunks), rest. simpl. rewrite <-(assoc_L (++)).
      split_and!; [done..|]. constructor; [|done].
      split; simpl; [lia|]. by rewrite Ac, Hp.
Qed.

Lemma match_items_complete its chunks rest :
  Forall2 item_ok its chunks →
  is_Some (match_items its (concat chunks ++ rest)).
Proof.
  induction 1 as [|[a q] ch its chunks [Hq Hp] _ IH]; simpl; [by eexists|].
  rewrite <-(assoc_L (++)). simpl in Hq, Hp. destruct q; simpl in Hq.
  - destruct ch as [|c [|? ?]]; simplify_eq/=.
    apply andb_prop in Hp as [-> _]. destruct IH as [ns ->]. by eexists.
  - destruct (greedy_complete (atom_ok a) (match_items its) ch
                (concat chunks ++ rest) Hp IH) as [[n ns] ->].
    by eexists.
  - destruct ch as [|c ch]; simpl in *; [lia|].
    apply andb_prop in Hp as [-> Hp].
    destruct (greedy_complete (atom_ok a) (match_items its) ch
                (concat chunks ++ rest) Hp IH) as [[n ns] ->].
    by eexists.
Qed.

End matcher_facts.

(** ** The pattern of the script *)

Section pattern_facts.

Lemma length_pos_nonnil (s : text) : 1 ≤ length s ↔ s ≠ [].
Proof. destruct s; simpl; split; (done || lia). Qed.

Lemma lit_chunk (c : ascii) (ch : text) :
  item_ok (Lit c, One) ch ↔ ch = [c].
Proof.
  unfold item_ok; simpl. split.
  - intros [Hl Hp]. destruct ch as [|d [|? ?]]; simplify_eq/=.
    apply andb_prop in Hp as [Hd _]. by apply bool_decide_eq_true in Hd as ->.
  - intros ->. simpl. split; [done|]. by rewrite bool_decide_eq_true_2.
Qed.

Lemma pattern_chunks (chunks : list text) :
  Forall2 item_ok pattern chunks ↔
  ∃ p, code_parts p ∧
       chunks = [p_lead p; p_ident p; p_pre_eq p; txt "="; p_post_eq p;
                 p_digits p; txt ","].
Proof.
  unfold pattern, group1, group2, comma; simpl. split.
  - intros H.
    repeat match goal with
           | H : Forall2 _ (_ :: _) _ |- _ =>
               apply Forall2_cons_inv_l in H as (? & ? & ? & H & ->)
           | H : Forall2 _ [] _ |- _ => apply Forall2_nil_inv_l in H as ->
           end.
    repeat match goal with
           | H : item_ok (Lit _, One) _ |- _ => apply lit_chunk in H as ->
           | H : item_ok _ _ |- _ => destruct H as [? ?]; simpl in *
           end.
    eexists {| p_lead := _ |}; simpl. split; [|done].
    unfold code_parts; simpl. rewrite <-!length_pos_nonnil. by split_and!.
  - intros (p & (H1 & H2 & H3 & H4 & H5 & H6 & H7 & H8) & ->).
    rewrite <-length_pos_nonnil in H1, H3, H7.
    repeat constructor; simpl; try done; by rewrite bool_decide_eq_true_2.
Qed.

Lemma match_pattern_sound (s : text) (lens : list nat) :
  match_items pattern s = Some lens →
  ∃ p rest, code_parts p ∧ s = assemble p ++ rest ∧ lens = parts_lens p.
Proof.
  intros (chunks & rest & -> & -> & HF)%match_items_sound.
  apply pattern_chunks in HF as (p & Hp & ->).
  exists p, rest. split; [done|]. split; [|done].
  unfold assemble, parts_group1. by norm_app.
Qed.

Lemma match_pattern_complete (p : parts) (rest : text) :
  code_parts p → is_Some (match_items pattern (assemble p ++ rest)).
Proof.
  intros Hp.
  pose proof (match_items_complete pattern
    [p_lead p; p_ident p; p_pre_eq p; txt "="; p_post_eq p;
     p_digits p; txt ","] rest) as H.
  unfold assemble, parts_group1. norm_app. norm_app_in H.
  apply H, pattern_chunks. by exists p.
Qed.

End pattern_facts.

(** ** What the scan reports *)

Section scan_facts.

Lemma match_pattern_nil : match_items pattern [] = None.
Proof. reflexivity. Qed.

Lemma drop_step (orig s : text) (pos : nat) (c : ascii) :
  drop pos orig = c :: s → drop (S pos) orig = s.
Proof.
  intros H. replace (S pos) with (pos + 1) by lia.
  by rewrite <-drop_drop, H.
Qed.

Lemma sum_parts_lens (p : parts) :
  sum_list (parts_lens p) = length (assemble p).
Proof.
  unfold parts_lens, assemble, parts_group1. len_app.
Qed.

Lemma scan_sound (orig s : text) (pos skip : nat) (m : rmatch) :
  drop pos orig = s → m ∈ scan orig s pos skip →
  ∃ lens, pos + skip ≤ m_start m
          ∧ match_items pattern (drop (m_start m) orig) = Some lens
          ∧ m = mk_match orig (m_start m) lens.
Proof.
  revert pos skip. induction s as [|c s IH]; intros pos skip Hd.
  - cbn [scan]. rewrite match_pattern_nil. destruct skip; by intros ?%elem_of_nil.
  - cbn [scan]. pose proof (drop_step _ _ _ _ Hd) as Hd'. destruct skip as [|k].
    + destruct (match_items pattern (c :: s)) as [lens|] eqn:M.
      * intros [->|Hin]%elem_of_cons.
        -- exists lens. simpl. rewrite Hd. split_and!; [lia|done..].
        -- destruct (IH _ _ Hd' Hin) as (l & ? & ? & ?).
           exists l. split_and!; [lia|done..].
      * intros Hin. destruct (IH _ _ Hd' Hin) as (l & ? & ? & ?).
        exists l. split_and!; [lia|done..].
    + intros Hin. destruct (IH _ _ Hd' Hin) as (l & ? & ? & ?).
      exists l. split_and!; [lia|done..].
Qed.

Lemma scan_cover (orig s : text) (pos skip j : nat) :
  skip ≤ j → is_Some (match_items pattern (drop j s)) →
  ∃ m, m ∈ scan orig s pos skip ∧ m_start m ≤ pos + j < m_end m.
Proof.
  revert pos skip j. induction s as [|c s IH]; intros pos skip j Hj HM.
  - rewrite drop_nil, match_pattern_nil in HM. by destruct HM.
  - cbn [scan]. destruct skip as [|k].
    + destruct (match_items pattern (c :: s)) as [lens|] eqn:M.
      * destruct (match_pattern_sound _ _ M) as (p & rest & _ & _ & ->).
        assert (1 ≤ sum_list (parts_lens p)) by (simpl; lia).
        destruct (decide (j < sum_list (parts_lens p))) as [Hlt|Hge].
        -- eexists. split; [by left|]. simpl in *. lia.
        -- destruct j as [|j]; [lia|]. cbn [skipn] in HM.
           destruct (IH (S pos) (pred (sum_list (parts_lens p))) j
                       ltac:(lia) HM) as (m & Hin & ?).
           exists m. split; [by right|]. lia.
      * destruct j as [|j]; [rewrite drop_0, M in HM; by destruct HM|].
        cbn [skipn] in HM. destruct (IH (S pos) 0 j ltac:(lia) HM) as (m & Hin & ?).
        exists m. split; [done|]. lia.
    + destruct j as [|j]; [lia|]. cbn [skipn] in HM.
      destruct (IH (S pos) k j ltac:(lia) HM) as (m & Hin & ?).
      exists m. split; [done|]. lia.
Qed.

Lemma scan_ordered (orig s : text) (pos skip : nat) :
  drop pos orig = s →
  StronglySorted (λ a b, m_end a ≤ m_start b) (scan orig s pos skip).
Proof.
  revert pos skip. induction s as [|c s IH]; intros pos skip Hd.
  - cbn [scan]. rewrite match_pattern_nil. destruct skip; constructor.
  - cbn [scan]. pose proof (drop_step _ _ _ _ Hd) as Hd'.
    destruct skip as [|k]; [|by apply IH].
    destruct (match_items pattern (c :: s)) as [lens|] eqn:M; [|by apply IH].
    constructor; [by apply IH|]. apply Forall_forall. intros b Hb.
    destruct (scan_sound _ _ _ _ _ Hd' Hb) as (_ & Hle & _).
    destruct (match_pattern_sound _ _ M) as (p & rest & _ & _ & ->).
    simpl in *. lia.
Qed.

Lemma mk_match_located (orig : text) (q : nat) (lens : list nat) :
  match_items pattern (drop q orig) = Some lens →
  ∃ p, located orig (mk_match orig q lens) p.
Proof.
  intros (p & rest & Hp & Hd & ->)%match_pattern_sound.
  exists p. split; [done|]. split; [done|]. split_and!.
  - exists (take q orig), rest. rewrite <-Hd, take_drop. split; [done|].
    simpl. rewrite length_take.
    destruct (decide (q ≤ length orig)) as [|Hn]; [lia|].
    rewrite drop_ge in Hd by lia.
    destruct Hp as (Hne & _). unfold assemble, parts_group1 in Hd.
    destruct (p_lead p); [done|]. norm_app_in Hd. done.
  - unfold parts_group1. len_app.
  - len_app.
  - unfold parts_group1. len_app.
Qed.

Lemma finditer_located (file : text) (m : rmatch) :
  m ∈ finditer file → ∃ p, located file m p.
Proof.
  intros (lens & _ & M & ->)%(scan_sound file file 0 0); [|done].
  by apply mk_match_located.
Qed.

Lemma located_group2 (orig : text) (m : rmatch) (p : parts) :
  located orig m p → group2_text m = p_digits p.
Proof.
  intros (_ & Hs & (pre & rest & Ho & Hst) & H2 & He2 & _).
  unfold group2_text, slice. rewrite Hs, H2, He2, Hst, Ho.
  unfold assemble.
  replace (pre ++ (parts_group1 p ++ p_digits p ++ txt ",") ++ rest)
    with ((pre ++ parts_group1 p) ++ p_digits p ++ txt "," ++ rest)
    by (by rewrite <-!app_assoc).
  rewrite drop_app_length' by (by rewrite length_app).
  apply take_app_length'. lia.
Qed.

Lemma located_group0 (orig : text) (m : rmatch) (p : parts) :
  located orig m p → group0_text m = assemble p.
Proof.
  intros (_ & Hs & (pre & rest & Ho & Hst) & H2 & He2 & He).
  unfold group0_text, slice. rewrite Hs, Hst, Ho.
  rewrite drop_app_length. apply take_app_length'.
  rewrite He, He2, H2, Hst. unfold assemble. len_app.
Qed.

Lemma located_end (orig : text) (m : rmatch) (p : parts) :
  located orig m p → m_start2 m ≤ m_end2 m ∧ m_end m ≤ length orig.
Proof.
  intros (_ & Hs & (pre & rest & Ho & Hst) & H2 & He2 & He).
  split; [lia|]. rewrite He, He2, H2, Hst, Ho. unfold assemble. len_app.
Qed.

End scan_facts.

(** ** Decimal conversion of the captured digits *)

Section int_facts.

Lemma int_digits_from (ds : text) (acc : N) :
  all_of PyChar.is_digit ds →
  is_Some (foldl (λ acc c,
                    n ← acc;
                    if PyChar.is_digit c
                    then Some (10 * n + PyChar.digit_value c)%N
                    else None) (Some acc) ds).
Proof.
  revert acc. induction ds as [|c ds IH]; intros acc H; simpl; [by eexists|].
  unfold all_of in H. simpl in H. apply andb_prop in H as [-> H].
  by apply IH.
Qed.

Lemma int_digits_run (ds : text) :
  ds ≠ [] → all_of PyChar.is_digit ds → is_Some (int ds).
Proof.
  intros Hne H. destruct ds as [|c ds]; [done|].
  by apply int_digits_from.
Qed.

Lemma located_code (orig : text) (m : rmatch) (p : parts) :
  located orig m p → is_Some (code_of m).
Proof.
  intros H. unfold code_of. rewrite (located_group2 _ _ _ H).
  destruct H as ((_ & _ & _ & _ & _ & _ & Hne & Hd) & _).
  by apply int_digits_run.
Qed.

Lemma finditer_code (file : text) (m : rmatch) :
  m ∈ finditer file → is_Some (code_of m).
Proof. intros [p Hp]%finditer_located. by eapply located_code. Qed.

End int_facts.

(** ** The loop and its invariant *)

Section loop_facts.

Lemma loop_body_iteration (st st' : state) (m : rmatch) :
  loop_body st m = Some st' ↔ iteration m st st'.
Proof.
  unfold loop_body. fold (code_of m). split.
  - destruct (code_of m) as [code|] eqn:Hc; simpl; [|done].
    destruct (N.leb_spec threshold code) as [Hle|Hlt].
    + destruct (seen_codes st !! code) as [b|] eqn:Hs.
      * intros [= <-]. by eapply iter_duplicate.
      * destruct (N.leb_spec (next_code st) code); intros [= <-].
        -- by eapply iter_first_above.
        -- by eapply iter_first_below.
    + intros [= <-]. by eapply iter_below.
  - intros [? code Hc H|? code Hc H [b Hs]|? code Hc H Hs Hn|? code Hc H Hs Hn];
      rewrite Hc; simpl.
    + by rewrite (proj2 (N.leb_gt _ _) H).
    + by rewrite (proj2 (N.leb_le _ _) H), Hs.
    + by rewrite (proj2 (N.leb_le _ _) H), Hs, (proj2 (N.leb_le _ _) Hn).
    + by rewrite (proj2 (N.leb_le _ _) H), Hs, (proj2 (N.leb_gt _ _) Hn).
Qed.

Lemma process_iterations (ms : list rmatch) (st st' : state) :
  process ms st = Some st' ↔ iterations ms st st'.
Proof.
  revert st. induction ms as [|m ms IH]; intros st; simpl.
  - split; [intros [= <-]; constructor|by inversion 1].
  - split.
    + destruct (loop_body st m) as [st1|] eqn:B; simpl; [|done].
      intros H. econstructor; [by apply loop_body_iteration|by apply IH].
    + inversion 1 as [|? ? ? st1 ? H1 H2]; subst.
      apply loop_body_iteration in H1 as ->. simpl. by apply IH.
Qed.

Lemma iteration_deterministic (m : rmatch) (st st1 st2 : state) :
  iteration m st st1 → iteration m st st2 → st1 = st2.
Proof.
  intros H1%loop_body_iteration H2%loop_body_iteration. congruence.
Qed.

Lemma iterations_deterministic (ms : list rmatch) (st st1 st2 : state) :
  iterations ms st st1 → iterations ms st st2 → st1 = st2.
Proof.
  intros H1. revert st2. induction H1 as [|m ms st st' st'' Hi _ IH];
    intros st2; inversion 1 as [|? ? ? sta ? Hi' Hr]; subst; [done|].
  rewrite (iteration_deterministic _ _ _ _ Hi Hi') in IH. by apply IH.
Qed.

Lemma iteration_replacement (m : rmatch) (st st' : state) :
  iteration m st st' →
  match replacement st m with
  | Some v =>
      v = next_code st ∧ next_code st' = (v + 1)%N
      ∧ seen_codes st' = seen_codes st
      ∧ content st' = splice (content st) m (str v)
  | None => content st' = content st
  end.
Proof.
  unfold replacement.
  intros [? code Hc H|? code Hc H [b Hs]|? code Hc H Hs Hn|? code Hc H Hs Hn];
    rewrite Hc; simpl.
  - by rewrite (proj2 (N.leb_gt _ _) H).
  - by rewrite (proj2 (N.leb_le _ _) H), Hs.
  - by rewrite (proj2 (N.leb_le _ _) H), Hs.
  - by rewrite (proj2 (N.leb_le _ _) H), Hs.
Qed.

Lemma iteration_invariant (m : rmatch) (st st' : state) :
  iteration m st st' → above_seen st →
  above_seen st' ∧ (next_code st ≤ next_code st')%N
  ∧ (∀ c, is_Some (seen_codes st !! c) → is_Some (seen_codes st' !! c)).
Proof.
  unfold above_seen.
  intros [? code Hc H|? code Hc H Hs|? code Hc H Hs Hn|? code Hc H Hs Hn] Hinv;
    simpl; (split; [|split]); try done; try lia.
  - intros c Hin. specialize (Hinv c Hin). lia.
  - intros c. rewrite lookup_insert. case_decide as E.
    + intros _. subst. lia.
    + intros Hin. specialize (Hinv c Hin). lia.
  - intros c Hin. rewrite lookup_insert. by case_decide.
  - intros c. rewrite lookup_insert. case_decide as E.
    + intros _. subst. lia.
    + by apply Hinv.
  - intros c Hin. rewrite lookup_insert. by case_decide.
Qed.

(** A code at or above the threshold is recorded once its match has been
    processed. *)
Lemma iteration_records (m : rmatch) (st st' : state) (code : N) :
  iteration m st st' → code_of m = Some code → (threshold ≤ code)%N →
  is_Some (seen_codes st' !! code).
Proof.
  intros [? c Hc H|? c Hc H Hs|? c Hc H Hs Hn|? c Hc H Hs Hn] Hcode Hle;
    simplify_eq/=; try done; try lia; by rewrite lookup_insert_eq.
Qed.

Lemma init_above_seen (file : text) : above_seen (init file).
Proof. intros c. simpl. rewrite lookup_empty. by intros [? ?]. Qed.

End loop_facts.

Section run_facts.

Lemma loop_body_total (st : state) (m : rmatch) :
  is_Some (code_of m) → is_Some (loop_body st m).
Proof.
  intros [code Hc]. unfold loop_body. fold (code_of m). rewrite Hc. simpl.
  destruct (threshold <=? code)%N; [|by eexists].
  destruct (seen_codes st !! code); by eexists.
Qed.

Lemma process_total (ms : list rmatch) (st : state) :
  (∀ m, m ∈ ms → is_Some (code_of m)) → is_Some (process ms st).
Proof.
  revert st. induction ms as [|m ms IH]; intros st H; simpl; [by eexists|].
  destruct (loop_body_total st m) as [st1 ->]; [apply H; by left|].
  simpl. apply IH. intros m' ?. apply H. by right.
Qed.

Lemma process_take (ms : list rmatch) (st : state) (k : nat) :
  is_Some (process ms st) → is_Some (process (take k ms) st).
Proof.
  revert st k. induction ms as [|m ms IH]; intros st [|k]; simpl;
    try by eexists.
  destruct (loop_body st m) as [st1|]; simpl; [apply IH|done].
Qed.

Lemma qualifying_cons (m : rmatch) (ms : list rmatch) (code : N) :
  code_of m = Some code →
  qualifying (m :: ms) =
    if decide (threshold ≤ code)%N then code :: qualifying ms
    else qualifying ms.
Proof.
  intros Hc. unfold qualifying, codes. simpl. rewrite Hc.
  by rewrite filter_cons.
Qed.

Lemma elem_of_qualifying (ms : list rmatch) (c : N) :
  c ∈ qualifying ms ↔
  (threshold ≤ c)%N ∧ ∃ m, m ∈ ms ∧ code_of m = Some c.
Proof.
  unfold qualifying, codes.
  by rewrite list_elem_of_filter, list_elem_of_omap.
Qed.

(** What holds after any number of iterations started in a state that
    satisfies the invariant. *)
Lemma process_invariant (ms : list rmatch) (st st' : state) :
  process ms st = Some st' → above_seen st →
  above_seen st' ∧ (next_code st ≤ next_code st')%N
  ∧ (∀ c, is_Some (seen_codes st !! c) → is_Some (seen_codes st' !! c))
  ∧ Forall (λ e, (next_code st ≤ e.1)%N ∧ (e.1 < next_code st')%N
                 ∧ e.1 = next_code e.2 ∧ above_seen e.2)
      (handouts ms st)
  ∧ StronglySorted N.lt (handouts ms st).*1
  ∧ (∀ c, c ∈ qualifying ms → is_Some (seen_codes st' !! c)).
Proof.
  revert st. induction ms as [|m ms IH]; intros st; simpl.
  - intros [= <-] Hinv. split_and!; try done; [constructor..|].
    by intros c ?%elem_of_nil.
  - destruct (loop_body st m) as [st1|] eqn:B; simpl; [|done].
    intros Hp Hinv. apply loop_body_iteration in B.
    destruct (iteration_invariant _ _ _ B Hinv) as (Hinv1 & Hn1 & Hs1).
    destruct (IH _ Hp Hinv1) as (Hinv' & Hn' & Hs' & HF & HS & HQ).
    pose proof (iteration_replacement _ _ _ B) as HR.
    assert (HF' : Forall (λ e, (next_code st ≤ e.1)%N
                               ∧ (e.1 < next_code st')%N
                               ∧ e.1 = next_code e.2 ∧ above_seen e.2)
                    (handouts ms st1)).
    { eapply Forall_impl; [exact HF|]. simpl. intros e (? & ? & ? & ?).
      split_and!; try done. lia. }
    split_and!; try done.
    + lia.
    + intros c ?. by apply Hs', Hs1.
    + destruct (replacement st m) as [v|]; [|done].
      destruct HR as (-> & Hv & _). constructor; [|done]. simpl.
      split_and!; try done; lia.
    + destruct (replacement st m) as [v|]; [|done].
      destruct HR as (-> & Hv & _). simpl. constructor; [done|].
      apply Forall_fmap. eapply Forall_impl; [exact HF|]. simpl.
      intros e (? & _). lia.
    + intros c (Hle & m' & [->|Hin]%elem_of_cons & Hc)%elem_of_qualifying.
      * eapply Hs', iteration_records; eauto.
      * apply HQ, elem_of_qualifying. eauto.
Qed.

(** With pairwise distinct qualifying codes, none of them recorded yet,
    the loop never takes the replacing branch. *)
Lemma process_unique (ms : list rmatch) (st : state) :
  (∀ m, m ∈ ms → is_Some (code_of m)) →
  NoDup (qualifying ms) →
  (∀ c, c ∈ qualifying ms → seen_codes st !! c = None) →
  ∃ st', process ms st = Some st' ∧ content st' = content st
         ∧ handouts ms st = []
         ∧ (qualifying ms = [] → st' = st).
Proof.
  revert st. induction ms as [|m ms IH]; intros st Hc Hnd Hfresh; simpl.
  - by exists st.
  - destruct (Hc m) as [code Hcode]; [by left|].
    assert (Hc' : ∀ m', m' ∈ ms → is_Some (code_of m'))
      by (intros m' ?; apply Hc; by right).
    rewrite (qualifying_cons _ _ _ Hcode) in Hnd, Hfresh |- *.
    unfold replacement, loop_body. fold (code_of m). rewrite Hcode. simpl.
    case_decide as Hle.
    + rewrite (proj2 (N.leb_le _ _) Hle).
      apply NoDup_cons in Hnd as [Hnin Hnd].
      rewrite (Hfresh code) by by left. simpl.
      edestruct (IH {| content := content st;
                       seen_codes := <[code:=true]> (seen_codes st);
                       next_code := if (next_code st <=? code)%N
                                    then (code + 1)%N else next_code st |})
        as (st' & -> & Hct & Hh & _); [done..| |].
      { intros c Hin. simpl. rewrite lookup_insert_ne by (by intros ->).
        apply Hfresh. by right. }
      exists st'. by split_and!.
    + rewrite (proj2 (N.leb_gt _ _) (proj1 (N.nle_gt _ _) Hle)). simpl.
      destruct (IH st Hc' Hnd Hfresh) as (st' & -> & Hct & Hh & Hq).
      exists st'. by split_and!.
Qed.

End run_facts.

(** ** Runs of the script and the example texts *)

Section examples.

Lemma starts_with_app (n r : text) : starts_with n (n ++ r) = true.
Proof.
  induction n as [|c n IH]; simpl; [done|].
  by rewrite bool_decide_eq_true_2, IH.
Qed.

Lemma occurs_app (pre n post : text) : occurs n (pre ++ n ++ post) = true.
Proof.
  induction pre as [|c pre IH]; simpl.
  - destruct (n ++ post) eqn:E; simpl; rewrite <-E, starts_with_app; done.
  - rewrite IH. apply orb_true_r.
Qed.

Lemma script_run_fix (file out : text) (n : N) :
  script_run file out n ↔ fix_error_codes file = Some (out, n).
Proof.
  unfold fix_error_codes. split.
  - intros [st H -> ->]. apply process_iterations in H. by rewrite H.
  - destruct (process (finditer file) (init file)) as [st|] eqn:P; [|done].
    simpl. intros [= <- <-]. exists st; [|done..].
    by apply process_iterations.
Qed.

Lemma fix_error_codes_total (file : text) :
  ∃ st, process (finditer file) (init file) = Some st
        ∧ fix_error_codes file = Some (content st, next_code st).
Proof.
  destruct (process_total (finditer file) (init file)) as [st P].
  { intros m. apply finditer_code. }
  exists st. split; [done|]. unfold fix_error_codes. by rewrite P.
Qed.

(** A blank directly before the equals sign is part of the specified
    form. *)
Lemma spec_form_blank_before_equals (s : text) :
  spec_form s →
  ∃ a c b, s = a ++ c :: "="%char :: b ∧ PyChar.is_space c = true.
Proof.
  intros ([lead id pre post ds] & (_ & _ & _ & Hne & Hsp & _) & ->).
  simpl in *. destruct (exists_last Hne) as (pre' & c & ->).
  exists (lead ++ id ++ pre'), c, (post ++ ds ++ txt ",").
  unfold assemble, parts_group1. split; [by norm_app|].
  unfold all_of in Hsp. rewrite forallb_app in Hsp.
  apply andb_prop in Hsp as [_ Hc]. simpl in Hc.
  by apply andb_prop in Hc as [-> _].
Qed.

Lemma blank_free_not_spec_form : ¬ spec_form (txt " A=1,").
Proof.
  intros (a & c & b & E & Hc)%spec_form_blank_before_equals.
  destruct a as [|? [|? [|? [|? [|? [|? ?]]]]]]; simplify_eq/=.
Qed.

End examples.

(** ** Whitespace before the two lines of the example *)

Section blank_run_facts.

(** A greedy repetition keeps a whole run of accepted characters when the
    rest of the pattern matches after it. *)
Lemma greedy_run (p : ascii → bool) (k : text → option (list nat))
    (ws s : text) (n : nat) (ns : list nat) :
  all_of p ws → greedy p k s = Some (n, ns) →
  greedy p k (ws ++ s) = Some (length ws + n, ns).
Proof.
  intros Hws Hs. induction ws as [|c ws IH]; [done|].
  unfold all_of in Hws. cbn [forallb] in Hws.
  apply andb_prop in Hws as [Hc Hws].
  cbn [app greedy length]. by rewrite Hc, (IH Hws).
Qed.

Lemma match_after_blanks (ws s : text) (ns : list nat) :
  ws ≠ [] → all_of PyChar.is_space ws →
  greedy PyChar.is_space (match_items pattern_rest) s = Some (0, ns) →
  match_items pattern (ws ++ s) = Some (length ws :: ns).
Proof.
  intros Hne Hws Hs. destruct ws as [|c ws]; [done|].
  unfold all_of in Hws. cbn [forallb] in Hws.
  apply andb_prop in Hws as [Hc Hws].
  change (match_items pattern ((c :: ws) ++ s))
    with (if PyChar.is_space c
          then '(n, ns) ← greedy PyChar.is_space
                              (match_items pattern_rest) (ws ++ s);
               Some (S n :: ns)
          else None).
  rewrite Hc, (greedy_run _ _ ws s 0 ns Hws Hs).
  cbn [mbind option_bind length]. by rewrite Nat.add_0_r.
Qed.

Lemma scan_skip (orig a s : text) (pos : nat) :
  scan orig (a ++ s) pos (length a) = scan orig s (pos + length a) 0.
Proof.
  revert pos. induction a as [|c a IH]; intros pos; cbn [app length scan].
  - by rewrite Nat.add_0_r.
  - rewrite IH. f_equal. lia.
Qed.

Lemma slice_middle (s a b c : text) (i j : nat) :
  s = a ++ b ++ c → i = length a → j = i + length b → slice i j s = b.
Proof.
  intros -> -> ->. unfold slice. rewrite drop_app_length.
  apply take_app_length'. lia.
Qed.

Lemma splice_middle (s a b c new : text) (m : rmatch) :
  s = a ++ b ++ c → m_start2 m = length a →
  m_end2 m = m_start2 m + length b →
  splice s m new = a ++ new ++ c.
Proof.
  intros -> Hs He. unfold splice. rewrite He, Hs.
  rewrite take_app_length. f_equal. f_equal.
  rewrite app_assoc, <-length_app. apply drop_app_length.
Qed.

(** A match at the head of the scanned text, and the scan after it. *)
Lemma scan_hit (orig pre rest : text) (pos : nat) (lens : list nat) :
  pre ≠ [] → match_items pattern (pre ++ rest) = Some lens →
  sum_list lens = length pre →
  scan orig (pre ++ rest) pos 0
  = mk_match orig pos lens :: scan orig rest (pos + length pre) 0.
Proof.
  intros Hne M Hsum. destruct pre as [|c pre]; [done|].
  change ((c :: pre) ++ rest) with (c :: pre ++ rest) in *.
  cbn [scan]. rewrite M, Hsum. cbn [length Init.Nat.pred].
  rewrite scan_skip. do 2 f_equal. lia.
Qed.

Lemma word_not_space (c : ascii) :
  PyChar.is_word c = true → PyChar.is_space c = false.
Proof. by destruct c as [[] [] [] [] [] [] [] []]. Qed.

(** The pattern does not match a text made of blanks. *)
Lemma blank_no_match (s : text) :
  all_of PyChar.is_space s → match_items pattern s = None.
Proof.
  intros Hs. destruct (match_items pattern s) as [lens|] eqn:M; [|done].
  apply match_pattern_sound in M as (p & rest & Hp & -> & _).
  destruct Hp as (_ & _ & Hne & Hw & _).
  destruct (p_ident p) as [|c id] eqn:E; [done|].
  unfold all_of, assemble, parts_group1 in *. rewrite E in Hs.
  rewrite !forallb_app in Hs. cbn [forallb] in Hs, Hw.
  apply andb_prop in Hw as [Hc%word_not_space _].
  rewrite Hc in Hs. by destruct (forallb _ (p_lead p)).
Qed.

Lemma scan_blank (orig s : text) (pos skip : nat) :
  all_of PyChar.is_space s → scan orig s pos skip = [].
Proof.
  revert pos skip. induction s as [|c s IH]; intros pos skip Hs.
  - cbn [scan]. by destruct skip.
  - pose proof (blank_no_match _ Hs) as M. cbn [scan]. rewrite M.
    unfold all_of in Hs. cbn [forallb] in Hs.
    apply andb_prop in Hs as [_ Hs]. destruct skip; by apply IH.
Qed.

End blank_run_facts.

Section two_lines_facts.

Variables ws1 ws2 ending : text.
Hypothesis ws1_nonempty : ws1 ≠ [].
Hypothesis ws1_blank : all_of PyChar.is_space ws1.
Hypothesis ws2_blank : all_of PyChar.is_space ws2.
Hypothesis ending_blank : all_of PyChar.is_space ending.

Lemma two_lines_matches :
  finditer (two_lines ws1 ws2 "B = 2134," ending)
  = [mk_match (two_lines ws1 ws2 "B = 2134," ending) 0
       [length ws1; 1; 1; 1; 1; 4; 1];
     mk_match (two_lines ws1 ws2 "B = 2134," ending) (length ws1 + 9)
       [S (length ws2); 1; 1; 1; 1; 4; 1]].
Proof.
  unfold finditer.
  set (orig := two_lines ws1 ws2 "B = 2134," ending) at 1 3 4.
  unfold two_lines.
  replace (ws1 ++ txt "A = 2134," ++ txt nl ++ ws2 ++ txt "B = 2134,"
           ++ ending)
    with ((ws1 ++ txt "A = 2134,")
          ++ ((txt nl ++ ws2) ++ txt "B = 2134,") ++ ending)
    by (by rewrite <-!app_assoc).
  rewrite (scan_hit orig _ _ 0 [length ws1; 1; 1; 1; 1; 4; 1]).
  - rewrite (scan_hit orig _ _ _ [S (length ws2); 1; 1; 1; 1; 4; 1]).
    + rewrite (scan_blank _ _ _ _ ending_blank).
      replace (0 + length (ws1 ++ txt "A = 2134,")) with (length ws1 + 9)
        by (rewrite length_app; cbn; lia).
      reflexivity.
    + by destruct ws2.
    + rewrite <-!app_assoc, (app_assoc (txt nl)).
      apply (match_after_blanks (txt nl ++ ws2)); [done| |].
      * unfold all_of in *. cbn [txt nl list_ascii_of_string app forallb].
        by rewrite ws2_blank.
      * reflexivity.
    + rewrite !length_app. cbn. lia.
  - by destruct ws1.
  - rewrite <-!app_assoc. apply match_after_blanks; [done..|]. reflexivity.
  - rewrite length_app. cbn. lia.
Qed.

End two_lines_facts.

(** ** The loop under the limit on decimal conversions *)

Section limit_facts.

Lemma loop_body_limited_spec (st : state) (m : rmatch) :
  loop_body_limited st m
  = if decide (length (group2_text m) ≤ max_str_digits
               ∧ Forall (λ v, length (str v) ≤ max_str_digits)
                   (option_list (replacement st m)))
    then of_option (loop_body st m) else ValueError.
Proof.
  unfold loop_body_limited, loop_body, replacement, code_of, int_limited.
  destruct (Nat.ltb_spec max_str_digits (length (group2_text m))) as [Hl|Hl].
  { rewrite decide_False by lia. done. }
  destruct (int (group2_text m)) as [code|]; cbn [of_option mbind outcome_bind
    option_bind]; [|by case_decide].
  destruct (threshold <=? code)%N;
    [|by rewrite decide_True by (split; [lia|constructor])].
  destruct (seen_codes st !! code);
    [|by rewrite decide_True by (split; [lia|constructor])].
  cbn [option_list]. unfold str_limited.
  destruct (Nat.ltb_spec max_str_digits (length (str (next_code st)))).
  - rewrite decide_False; [done|]. intros [_ [? _]%Forall_cons]. lia.
  - rewrite decide_True; [done|]. split; [lia|].
    apply Forall_cons. split; [lia|constructor].
Qed.

Lemma within_limit_cons (m : rmatch) (ms : list rmatch) (st st1 : state) :
  loop_body st m = Some st1 →
  within_limit (m :: ms) st
  ↔ (length (group2_text m) ≤ max_str_digits
     ∧ Forall (λ v, length (str v) ≤ max_str_digits)
         (option_list (replacement st m)))
    ∧ within_limit ms st1.
Proof.
  intros B. unfold within_limit. cbn [replaced]. rewrite B.
  destruct (replacement st m); simpl;
    rewrite ?Forall_cons, ?Forall_nil; cbn beta iota delta [snd]; tauto.
Qed.

(** The loop under the limit raises when one of its conversions exceeds
    the limit, and otherwise does what the loop without the limit does. *)
Lemma process_limited_spec (ms : list rmatch) (st : state) :
  process_limited ms st
  = if decide (within_limit ms st) then of_option (process ms st)
    else ValueError.
Proof.
  revert st. induction ms as [|m ms IH]; intros st.
  { cbn [process_limited process]. rewrite decide_True; [done|].
    split; constructor. }
  cbn [process_limited process]. rewrite loop_body_limited_spec.
  destruct (loop_body st m) as [st1|] eqn:B.
  - pose proof (within_limit_cons m ms st st1 B) as W.
    case_decide as Hm; cbn [of_option mbind outcome_bind option_bind].
    + rewrite IH. destruct (decide (within_limit ms st1)).
      * by rewrite decide_True by (by apply W).
      * rewrite decide_False; [done|]. rewrite W. tauto.
    + rewrite decide_False; [done|]. rewrite W. tauto.
  - cbn [of_option mbind outcome_bind option_bind]. by repeat case_decide.
Qed.

End limit_facts.

(** * The claims *)

(** C1, evaluated on a failing input.  The claim asks that no two
    qualifying codes of the rewritten text be equal.  On the three indented
    lines [A = 2134,], [B = 2134,], [C = 2135,] the script renumbers [B] to 2135,
    the value that [C], further down and not yet visited, already carries:
    the rewritten text holds 2135 twice. *)
Theorem forward_collision_duplicates_code :
  fix_error_codes collision_input = Some (collision_output, 2136%N)
  ∧ qualifying_codes collision_output = [2134; 2135; 2135]%N
  ∧ ¬ NoDup (qualifying_codes collision_output).
Proof.
  assert (Hq : qualifying_codes collision_output = [2134; 2135; 2135]%N)
    by (vm_compute; reflexivity).
  split_and!; [vm_compute; reflexivity|done|].
  rewrite Hq. intros H. apply NoDup_cons in H as [_ H].
  apply NoDup_cons in H as [H _]. apply H. by left.
Qed.

(** C2, as stated, fails: [A = 2134,] at the very start of a text has the
    specified form and is not matched; and [ A=1,], with no blank before the
    equals sign, is matched although it does not have the specified form. *)
Lemma start_of_text_assignment_not_matched :
  (spec_form (txt "A = 2134,") ∧ finditer (txt "A = 2134,") = [])
  ∧ (¬ spec_form (txt " A=1,") ∧ finditer (txt " A=1,") ≠ []).
Proof.
  split; split.
  - exists {| p_lead := []; p_ident := txt "A"; p_pre_eq := txt " ";
              p_post_eq := txt " "; p_digits := txt "2134" |}.
    split; [|reflexivity]. by repeat split.
  - reflexivity.
  - exact blank_free_not_spec_form.
  - by vm_compute.
Qed.

(** C2, amended.  Every match reported by [finditer] is an occurrence of
    the form: one or more blanks, an identifier, optional blanks, the equals
    sign, optional blanks, a decimal integer, a comma, with group 2 the
    integer; an anchored match succeeds exactly where a substring of that
    form starts; every place where such a substring starts lies inside a
    reported match, and the reported matches come in order of appearance
    without overlap (the scan is leftmost and non-overlapping); and no match
    starts at a character that is not a blank, so an assignment at the very
    start of the text is not matched. *)
Theorem finditer_matches_code_form :
  (∀ file m, m ∈ finditer file →
     ∃ p, located file m p ∧ group0_text m = assemble p
          ∧ group2_text m = p_digits p)
  ∧ (∀ s, is_Some (match_items pattern s) ↔
          ∃ p rest, code_parts p ∧ s = assemble p ++ rest)
  ∧ (∀ file pre p rest, code_parts p → file = pre ++ assemble p ++ rest →
       ∃ m, m ∈ finditer file ∧ m_start m ≤ length pre < m_end m)
  ∧ (∀ file, StronglySorted (λ a b, m_end a ≤ m_start b) (finditer file))
  ∧ (∀ c s, PyChar.is_space c = false → match_items pattern (c :: s) = None)
  ∧ finditer (txt "A = 2134,") = [].
Proof.
  split_and!; [| | |intros file; by apply scan_ordered|..].
  - intros file m [p Hp]%finditer_located. exists p. split_and!; [done|..].
    + by eapply located_group0.
    + by eapply located_group2.
  - intros s. split.
    + intros [lens (p & rest & ? & ? & _)%match_pattern_sound]. eauto.
    + intros (p & rest & Hp & ->). by apply match_pattern_complete.
  - intros file pre p rest Hp ->.
    destruct (scan_cover (pre ++ assemble p ++ rest)
                (pre ++ assemble p ++ rest) 0 0 (length pre)) as (m & ? & ?);
      [lia| |by exists m].
    rewrite drop_app_length. by apply match_pattern_complete.
  - intros c s Hc. simpl. by rewrite Hc.
  - reflexivity.
Qed.

(** C3, evaluated on a failing input.  An iteration on a match below the
    threshold leaves the whole state as it is, as the claim says.  But the
    assignment itself can still be damaged: offsets are those of the text
    as read, and a replacement of another length shifts what follows.  Here
    [B = 000000002134,] shrinks to [B = 2135,], the third assignment repeats
    2134, and its splice lands eight characters further, on [C = 7,], which
    is absent from the output. *)
Theorem stale_offsets_damage_low_assignment :
  (∀ st m code, code_of m = Some code → (code < threshold)%N →
     loop_body st m = Some st)
  ∧ fix_error_codes shift_input = Some (shift_output, 2137%N)
  ∧ (∃ m, m ∈ finditer shift_input ∧ code_of m = Some 7%N
          ∧ group0_text m = txt nl ++ txt " C = 7,")
  ∧ ¬ (∃ pre post, shift_output = pre ++ txt "C = 7," ++ post).
Proof.
  split_and!.
  - intros st m code Hc Hlt. apply loop_body_iteration. by eapply iter_below.
  - vm_compute; reflexivity.
  - eexists. split; [|split].
    + do 3 right. left.
    + vm_compute; reflexivity.
    + vm_compute; reflexivity.
  - intros (pre & post & E).
    pose proof (occurs_app pre (txt "C = 7,") post) as H.
    rewrite <-E in H. vm_compute in H. discriminate H.
Qed.

(** C4, as stated, fails: on the two lines [A = 2134,] and [B = 2134,]
    nothing precedes [A], so only the second line is matched, its code is
    new, and the text is written back as it was (with or without a line
    feed after the last line). *)
Lemma two_unindented_lines_unchanged :
  fix_error_codes (lines ["A = 2134,"; "B = 2134,"])
  = Some (lines ["A = 2134,"; "B = 2134,"], 2135%N)
  ∧ lines ["A = 2134,"; "B = 2134,"] ≠ lines ["A = 2134,"; "B = 2135,"]
  ∧ fix_error_codes (lines ["A = 2134,"] ++ txt "B = 2134,")
    = Some (lines ["A = 2134,"] ++ txt "B = 2134,", 2135%N).
Proof.
  split_and!; [vm_compute; reflexivity|by vm_compute|vm_compute; reflexivity].
Qed.

(** C4, amended.  When one or more whitespace characters precede the first
    assignment, and any whitespace stands between the line feed that ends
    the first line and the second assignment and after the second line,
    the two lines [A = 2134,] and [B = 2134,] are written back as
    [A = 2134,] and [B = 2135,] with all whitespace kept, and [next_code]
    ends at 2136. *)
Theorem blank_led_lines_renumbered (ws1 ws2 ending : text) :
  ws1 ≠ [] → all_of PyChar.is_space ws1 → all_of PyChar.is_space ws2 →
  all_of PyChar.is_space ending →
  fix_error_codes (two_lines ws1 ws2 "B = 2134," ending)
  = Some (two_lines ws1 ws2 "B = 2135," ending, 2136%N).
Proof.
  intros Hne Hws1 Hws2 Hend.
  unfold fix_error_codes. rewrite two_lines_matches by done.
  set (file := two_lines ws1 ws2 "B = 2134," ending).
  set (m1 := mk_match file 0 _). set (m2 := mk_match file _ _).
  assert (G1 : group2_text m1 = txt "2134").
  { apply (slice_middle _ (ws1 ++ txt "A = ") _
             (txt "," ++ txt nl ++ ws2 ++ txt "B = 2134," ++ ending)).
    - unfold m1, mk_match, file, two_lines. cbn [m_string].
      by rewrite <-!app_assoc.
    - rewrite length_app. cbn. lia.
    - cbn. lia. }
  assert (F2 : file = (ws1 ++ txt "A = 2134," ++ txt nl ++ ws2 ++ txt "B = ")
                      ++ txt "2134" ++ txt "," ++ ending).
  { unfold file, two_lines. by rewrite <-!app_assoc. }
  assert (S2 : m_start2 m2
               = length (ws1 ++ txt "A = 2134," ++ txt nl ++ ws2 ++ txt "B = ")).
  { rewrite !length_app. cbn. lia. }
  assert (E2 : m_end2 m2 = m_start2 m2 + length (txt "2134")).
  { cbn. lia. }
  assert (G2 : group2_text m2 = txt "2134").
  { by apply (slice_middle _ _ _ _ _ _ F2). }
  assert (L1 : loop_body (init file) m1
               = Some {| content := file;
                         seen_codes := <[2134%N := true]> ∅;
                         next_code := 2135 |}).
  { unfold loop_body. rewrite G1. reflexivity. }
  assert (L2 : loop_body {| content := file;
                            seen_codes := <[2134%N := true]> ∅;
                            next_code := 2135 |} m2
               = Some {| content := splice file m2 (txt "2135");
                         seen_codes := <[2134%N := true]> ∅;
                         next_code := 2136 |}).
  { unfold loop_body. rewrite G2.
    change (int (txt "2134")) with (Some 2134%N).
    cbn [mbind option_bind seen_codes content next_code].
    change (threshold <=? 2134)%N with true. cbn iota.
    by rewrite lookup_insert_eq. }
  cbn [process]. rewrite L1. cbn [mbind option_bind]. rewrite L2.
  cbn [mbind option_bind content next_code].
  rewrite (splice_middle _ _ _ _ _ _ F2 S2 E2).
  f_equal. f_equal. unfold two_lines. by rewrite <-!app_assoc.
Qed.

(** C4 at lines indented with a tab, a no-break space and a carriage
    return, the second after a form feed, a vertical tab and U+0085, and
    ended by a carriage return and a line feed. *)
Lemma blank_led_lines_renumbered_witness :
  mixed_indent ≠ [] ∧ all_of PyChar.is_space mixed_indent
  ∧ all_of PyChar.is_space mixed_gap ∧ all_of PyChar.is_space crlf
  ∧ fix_error_codes (two_lines mixed_indent mixed_gap "B = 2134," crlf)
    = Some (two_lines mixed_indent mixed_gap "B = 2135," crlf, 2136%N).
Proof.
  assert (H1 : mixed_indent ≠ []) by done.
  assert (H2 : all_of PyChar.is_space mixed_indent) by reflexivity.
  assert (H3 : all_of PyChar.is_space mixed_gap) by reflexivity.
  assert (H4 : all_of PyChar.is_space crlf) by reflexivity.
  split; [exact H1|]. split; [exact H2|]. split; [exact H3|].
  split; [exact H4|].
  exact (blank_led_lines_renumbered mixed_indent mixed_gap crlf H1 H2 H3 H4).
Defined.

(** C5.  The numbers handed out in one run are strictly increasing, so none
    repeats an earlier one; each is the value of [next_code] at that moment
    and is then absent from [seen_codes].  The numbers handed out are the
    numbers spliced in: an iteration changes the text exactly when
    [replacement] gives a number, and then splices the decimal text of that
    number. *)
Theorem replacements_increase_and_are_fresh (file : text) :
  StronglySorted N.lt (handouts (finditer file) (init file)).*1
  ∧ NoDup (handouts (finditer file) (init file)).*1
  ∧ Forall (λ e, e.1 = next_code e.2 ∧ seen_codes e.2 !! e.1 = None)
      (handouts (finditer file) (init file))
  ∧ (∀ st m st', loop_body st m = Some st' →
       match replacement st m with
       | Some v =>
           v = next_code st ∧ next_code st' = (v + 1)%N
           ∧ seen_codes st' = seen_codes st
           ∧ content st' = splice (content st) m (str v)
       | None => content st' = content st
       end).
Proof.
  destruct (fix_error_codes_total file) as (st & P & _).
  destruct (process_invariant _ _ _ P (init_above_seen file))
    as (_ & _ & _ & HF & HS & _).
  split_and!; [done| | |intros ? ? ? ?%loop_body_iteration;
                         by apply iteration_replacement].
  - clear HF. induction HS as [|v l _ IH Hv]; constructor; [|done].
    intros Hin. rewrite Forall_forall in Hv.
    pose proof (Hv v Hin). lia.
  - eapply Forall_impl; [exact HF|]. simpl.
    intros [v s] (_ & _ & -> & Hinv). simpl in *. split; [done|].
    destruct (seen_codes s !! next_code s) eqn:E; [|done].
    pose proof (Hinv (next_code s) (mk_is_Some _ _ E)). lia.
Qed.

(** C6.  On a text whose qualifying codes are pairwise distinct the script
    writes the text back unchanged, and a second run on that output does the
    same. *)
Theorem unique_codes_fixed_point (file : text) :
  NoDup (qualifying_codes file) →
  ∃ n, fix_error_codes file = Some (file, n)
       ∧ (fix_error_codes file ≫= λ r, fix_error_codes r.1) = Some (file, n).
Proof.
  intros Hnd.
  destruct (process_unique (finditer file) (init file))
    as (st & P & Hc & _); [by apply finditer_code|done| |].
  { intros c _. apply lookup_empty. }
  exists (next_code st).
  assert (E : fix_error_codes file = Some (file, next_code st)).
  { unfold fix_error_codes. rewrite P. simpl. by rewrite Hc. }
  by rewrite E.
Qed.

(** C6 at a text with two distinct qualifying codes and two low ones. *)
Lemma unique_codes_fixed_point_witness :
  NoDup (qualifying_codes unique_input)
  ∧ ∃ n, fix_error_codes unique_input = Some (unique_input, n)
         ∧ (fix_error_codes unique_input ≫= λ r, fix_error_codes r.1)
           = Some (unique_input, n).
Proof.
  assert (H : NoDup (qualifying_codes unique_input)).
  { apply (bool_decide_unpack _). vm_compute. exact I. }
  split; [exact H|]. exact (unique_codes_fixed_point unique_input H).
Defined.

(** C7.  When the pattern matches nowhere, or no match repeats a qualifying
    code, the text written back is the text read; and when no match carries
    a qualifying code, the number printed is the start code 2135. *)
Theorem no_duplicate_no_change (file : text) :
  finditer file = [] ∨ NoDup (qualifying_codes file) →
  ∃ n, fix_error_codes file = Some (file, n)
       ∧ (qualifying_codes file = [] → n = start_code).
Proof.
  intros H.
  assert (Hnd : NoDup (qualifying_codes file)).
  { destruct H as [E|H]; [|done]. unfold qualifying_codes. rewrite E.
    constructor. }
  destruct (process_unique (finditer file) (init file))
    as (st & P & Hc & _ & Hq); [by apply finditer_code|done| |].
  { intros c _. apply lookup_empty. }
  exists (next_code st). split.
  - unfold fix_error_codes. rewrite P. simpl. by rewrite Hc.
  - intros E. by rewrite (Hq E).
Qed.

(** C7 at a text in which the pattern matches nowhere. *)
Lemma no_duplicate_no_change_witness :
  (finditer (lines ["pub enum E {"; "}"]) = []
   ∨ NoDup (qualifying_codes (lines ["pub enum E {"; "}"])))
  ∧ ∃ n, fix_error_codes (lines ["pub enum E {"; "}"])
         = Some (lines ["pub enum E {"; "}"], n)
         ∧ (qualifying_codes (lines ["pub enum E {"; "}"]) = [] →
            n = start_code).
Proof.
  assert (H : finditer (lines ["pub enum E {"; "}"]) = []
              ∨ NoDup (qualifying_codes (lines ["pub enum E {"; "}"])))
    by (left; vm_compute; reflexivity).
  split; [exact H|]. exact (no_duplicate_no_change _ H).
Defined.

(** C8, as stated, fails on an interpreter with the default limit on
    decimal conversions: [int] raises [ValueError] on a matched integer of
    4301 digits, also when all but the last digit are zeros; and [str]
    raises on 10^4300, the number handed out for a repeated code once the
    code 10^4300 - 1, of 4300 digits, has been read. *)
Lemma long_integer_raises_value_error :
  fix_error_codes_limited long_integer_input = ValueError
  ∧ fix_error_codes_limited padded_integer_input = ValueError
  ∧ Forall (λ m, length (group2_text m) ≤ max_str_digits)
      (finditer long_replacement_input)
  ∧ (replaced (finditer long_replacement_input)
       (init long_replacement_input)).*2 = [(10 ^ 4300)%N]
  ∧ fix_error_codes_limited long_replacement_input = ValueError.
Proof.
  split_and!; [vm_compute; reflexivity..| | |vm_compute; reflexivity].
  - apply (bool_decide_unpack _). vm_compute. exact I.
  - vm_compute. reflexivity.
Qed.

(** C8, amended.  The loop ends on every text, and it raises exactly when a
    decimal conversion exceeds the interpreter's limit of 4300 digits: when
    a matched integer has more than 4300 digits, or a number to be written
    has.  Otherwise it raises nothing and gives the text and the number of
    the run without the limit, which exists for every text.  Every captured
    group 2 is a non-empty run of digits inside the text, so [int] fails on
    it for no other reason; and the two slices of a splice are defined for a
    text of any length, since they clamp at its end. *)
Theorem run_raises_exactly_beyond_digit_limit (file : text) :
  fix_error_codes_limited file
  = (if decide (within_limit (finditer file) (init file))
     then of_option (fix_error_codes file) else ValueError)
  ∧ (∃ out n, fix_error_codes file = Some (out, n))
  ∧ (∀ m, m ∈ finditer file →
       group2_text m ≠ [] ∧ all_of PyChar.is_digit (group2_text m)
       ∧ is_Some (int (group2_text m))
       ∧ m_start2 m ≤ m_end2 m ≤ length file)
  ∧ (∀ (c : text) m new,
       length (splice c m new)
       = m_start2 m `min` length c + length new + (length c - m_end2 m)).
Proof.
  split_and!.
  - unfold fix_error_codes_limited, fix_error_codes.
    rewrite process_limited_spec. case_decide; [|done].
    by destruct (process (finditer file) (init file)).
  - destruct (fix_error_codes_total file) as (st & _ & E). eauto.
  - intros m Hin. pose proof (finditer_code _ _ Hin) as Hi.
    destruct (finditer_located _ _ Hin) as [p Hp].
    rewrite (located_group2 _ _ _ Hp).
    pose proof Hp as ((_ & _ & _ & _ & _ & _ & Hne & Hd) & _).
    unfold code_of in Hi. rewrite (located_group2 _ _ _ Hp) in Hi.
    destruct (located_end _ _ _ Hp) as [? ?].
    destruct Hp as (_ & _ & _ & _ & ? & ?). split_and!; try done. lia.
  - intros c m new. unfold splice.
    rewrite !length_app, length_take, length_drop. lia.
Qed.

(** C10.  After any number of iterations [next_code] is above every code
    in [seen_codes] and above every number handed out so far; so the number
    printed at the end is above every qualifying code of the text read and
    above every replacement written. *)
Theorem next_code_above_all (file : text) :
  (∀ k, ∃ st,
     process (take k (finditer file)) (init file) = Some st
     ∧ (∀ c, is_Some (seen_codes st !! c) → (c < next_code st)%N)
     ∧ (∀ v, v ∈ (handouts (take k (finditer file)) (init file)).*1 →
             (v < next_code st)%N))
  ∧ (∃ out n,
       fix_error_codes file = Some (out, n)
       ∧ (∀ c, c ∈ qualifying_codes file → (c < n)%N)
       ∧ (∀ v, v ∈ (handouts (finditer file) (init file)).*1 → (v < n)%N)).
Proof.
  assert (Hvals : ∀ ms st,
            process ms (init file) = Some st →
            above_seen st
            ∧ (∀ v, v ∈ (handouts ms (init file)).*1 → (v < next_code st)%N)
            ∧ (∀ c, c ∈ qualifying ms → (c < next_code st)%N)).
  { intros ms st P.
    destruct (process_invariant _ _ _ P (init_above_seen file))
      as (Hinv & _ & _ & HF & _ & HQ).
    split_and!; [done| |].
    - intros v ([v' s] & -> & Hin)%list_elem_of_fmap.
      rewrite Forall_forall in HF.
      by destruct (HF _ Hin) as (_ & ? & _).
    - intros c Hc. by apply Hinv, HQ. }
  destruct (fix_error_codes_total file) as (st & P & E). split.
  - intros k.
    destruct (process_take (finditer file) (init file) k) as [stk Pk];
      [by rewrite P|].
    exists stk. destruct (Hvals _ _ Pk) as (? & ? & _). by split_and!.
  - exists (content st), (next_code st).
    destruct (Hvals _ _ P) as (_ & ? & ?). by split_and!.
Qed.

(** * Part IV: lemmas for the further properties *)

(** ** Decimal text of a number *)

Section decimal_facts.

Lemma int_step_digit (p k : positive) (c : ascii) :
  PyChar.is_digit c = true → PyChar.digit_value c = N.pos k →
  int_step (Some (N.pos p)) c = Some (N.pos (k + 10 * p)).
Proof.
  intros Hd Hv. unfold int_step. cbn [mbind option_bind]. rewrite Hd, Hv.
  f_equal. lia.
Qed.

Lemma fold_uint_pos (d : Decimal.uint) (p : positive) :
  foldl int_step (Some (N.pos p)) (txt (NilEmpty.string_of_uint d))
  = Some (N.pos (Pos.of_uint_acc d p)).
Proof.
  revert p. induction d as [|d IH|d IH|d IH|d IH|d IH|d IH|d IH|d IH|d IH|d IH];
    intros p; [done|..];
    cbn [NilEmpty.string_of_uint txt list_ascii_of_string foldl Pos.of_uint_acc];
    rewrite <-IH; f_equal; try done; by apply int_step_digit.
Qed.

Lemma fold_uint_zero (d : Decimal.uint) :
  foldl int_step (Some 0%N) (txt (NilEmpty.string_of_uint d))
  = Some (Pos.of_uint d).
Proof.
  induction d as [|d IH|d IH|d IH|d IH|d IH|d IH|d IH|d IH|d IH|d IH];
    [done|exact IH|..];
    cbn [NilEmpty.string_of_uint txt list_ascii_of_string foldl Pos.of_uint];
    apply fold_uint_pos.
Qed.

Lemma uint_text_digits (d : Decimal.uint) :
  all_of PyChar.is_digit (txt (NilEmpty.string_of_uint d)).
Proof. induction d; done. Qed.

Lemma str_digits (n : N) : str n ≠ [] ∧ all_of PyChar.is_digit (str n).
Proof.
  unfold str. generalize (N.to_uint n). intros d. split.
  - by destruct d.
  - destruct d; try done; apply (uint_text_digits (_ d)).
Qed.

Lemma int_str (n : N) : int (str n) = Some n.
Proof.
  unfold str. pose proof (DecimalN.Unsigned.of_to n) as H.
  destruct (N.to_uint n) as [|d|d|d|d|d|d|d|d|d|d] eqn:E;
    [by rewrite <-H|..];
    rewrite <-H; unfold N.of_uint;
    match goal with
    | |- int (txt (NilZero.string_of_uint ?u)) = _ =>
        change (int (txt (NilZero.string_of_uint u)))
          with (foldl int_step (Some 0%N) (txt (NilEmpty.string_of_uint u)))
    end;
    apply fold_uint_zero.
Qed.

(** A digit is no blank, is a word character, and is neither the equals
    sign nor the comma. *)
Lemma digits_similar (c d : ascii) :
  PyChar.is_digit c = true → PyChar.is_digit d = true → similar c d.
Proof.
  assert (H : ∀ c, PyChar.is_digit c = true →
            ∀ it, it ∈ pattern → atom_ok it.1 c = atom_ok it.1 "0"%char).
  { clear. intros c Hc it Hit.
    assert (Hcases : it.1 = Space ∨ it.1 = Word ∨ it.1 = Digit
                     ∨ it.1 = Lit "=" ∨ it.1 = Lit ",").
    { unfold pattern, group1, group2, comma in Hit. simpl in Hit.
      repeat (apply elem_of_cons in Hit as [->|Hit]; [simpl; tauto|]).
      by apply elem_of_nil in Hit. }
    destruct c as [[] [] [] [] [] [] [] []]; try discriminate Hc;
      destruct Hcases as [->|[->|[->|[->| ->]]]]; reflexivity. }
  intros Hc Hd it Hit. by rewrite (H c Hc it Hit), (H d Hd it Hit).
Qed.

End decimal_facts.

(** ** Bookkeeping of the loop *)

Section bookkeeping_facts.

Lemma process_app (ms1 ms2 : list rmatch) (st : state) :
  process (ms1 ++ ms2) st = process ms1 st ≫= process ms2.
Proof.
  revert st. induction ms1 as [|m ms1 IH]; intros st; simpl; [done|].
  destruct (loop_body st m) as [st1|]; simpl; [apply IH|done].
Qed.

Lemma replaced_handouts (ms : list rmatch) (st : state) :
  (replaced ms st).*2 = (handouts ms st).*1.
Proof.
  revert st. induction ms as [|m ms IH]; intros st; simpl; [done|].
  destruct (loop_body st m) as [st1|]; [|done].
  destruct (replacement st m); simpl; by rewrite IH.
Qed.

Lemma replaced_elem (ms : list rmatch) (st : state) (r : rmatch * N) :
  r ∈ replaced ms st → r.1 ∈ ms.
Proof.
  revert st. induction ms as [|m ms IH]; intros st; simpl.
  - by intros ?%elem_of_nil.
  - destruct (loop_body st m) as [st1|]; [|by intros ?%elem_of_nil].
    destruct (replacement st m).
    + intros [->|H]%elem_of_cons; [by left|right; by eapply IH].
    + intros H. right. by eapply IH.
Qed.

Lemma replaced_nil_content (ms : list rmatch) (st st' : state) :
  process ms st = Some st' → replaced ms st = [] → content st' = content st.
Proof.
  revert st. induction ms as [|m ms IH]; intros st; simpl.
  - by intros [= <-].
  - destruct (loop_body st m) as [st1|] eqn:B; simpl; [|done].
    apply loop_body_iteration, iteration_replacement in B.
    destruct (replacement st m); [done|].
    intros P E. by rewrite (IH _ P E).
Qed.

(** [seen_codes] after the loop: what was there, and the qualifying codes
    of the matches, each marked [True]. *)
Lemma process_seen (ms : list rmatch) (st st' : state) :
  process ms st = Some st' →
  ∀ c, seen_codes st' !! c =
       match seen_codes st !! c with
       | Some b => Some b
       | None => if decide (c ∈ qualifying ms) then Some true else None
       end.
Proof.
  revert st. induction ms as [|m ms IH]; intros st; cbn [process].
  - intros [= <-] c. destruct (seen_codes st !! c); [done|].
    rewrite decide_False; [done|by intros ?%elem_of_nil].
  - destruct (loop_body st m) as [st1|] eqn:B; cbn [mbind option_bind]; [|done].
    intros P c. rewrite (IH _ P c). apply loop_body_iteration in B.
    destruct B as [? code Hc H|? code Hc H [b Hs]|? code Hc H Hs Hn
                  |? code Hc H Hs Hn];
      rewrite (qualifying_cons _ _ _ Hc); simpl;
      destruct (decide (threshold ≤ code)%N) as [Hd|Hd]; try lia; try done.
    + destruct (seen_codes st !! c) eqn:E; [done|].
      apply decide_ext. rewrite elem_of_cons.
      split; [tauto|]. intros [->|?]; [congruence|done].
    + rewrite lookup_insert.
      case_decide as E; [subst; by rewrite Hs, decide_True by by left|].
      destruct (seen_codes st !! c); [done|].
      apply decide_ext. rewrite elem_of_cons.
      split; [tauto|]. intros [->|?]; [congruence|done].
    + rewrite lookup_insert.
      case_decide as E; [subst; by rewrite Hs, decide_True by by left|].
      destruct (seen_codes st !! c); [done|].
      apply decide_ext. rewrite elem_of_cons.
      split; [tauto|]. intros [->|?]; [congruence|done].
Qed.

(** Which iteration renumbers. *)
Lemma replacement_spec (st : state) (m : rmatch) (c : N) :
  code_of m = Some c →
  replacement st m =
    if decide ((threshold ≤ c)%N ∧ is_Some (seen_codes st !! c))
    then Some (next_code st) else None.
Proof.
  intros Hc. unfold replacement. rewrite Hc. simpl.
  destruct (N.leb_spec threshold c) as [Hle|Hlt].
  - destruct (seen_codes st !! c) eqn:E.
    + by rewrite decide_True by eauto.
    + rewrite decide_False; [done|]. by intros [_ [? ?]].
  - rewrite decide_False; [done|]. intros [? _]. lia.
Qed.

(** Every renumbering comes with a new entry less in [seen_codes]. *)
Lemma process_count (ms : list rmatch) (st st' : state) :
  process ms st = Some st' →
  length (replaced ms st) + size (seen_codes st')
  = length (qualifying ms) + size (seen_codes st).
Proof.
  revert st. induction ms as [|m ms IH]; intros st; simpl.
  - by intros [= <-].
  - destruct (loop_body st m) as [st1|] eqn:B; simpl; [|done].
    intros P. specialize (IH _ P). apply loop_body_iteration in B.
    pose proof (iteration_replacement _ _ _ B) as HR.
    destruct B as [? code Hc H|? code Hc H [b Hs]|? code Hc H Hs Hn
                  |? code Hc H Hs Hn];
      rewrite (qualifying_cons _ _ _ Hc);
      rewrite (replacement_spec _ _ _ Hc) in HR |- *; simpl in *.
    + rewrite !decide_False by (try intros [? _]; lia). lia.
    + rewrite !decide_True by eauto. simpl. lia.
    + rewrite decide_False by (rewrite Hs; by intros [_ [? ?]]).
      rewrite decide_True by done. simpl.
      rewrite map_size_insert_None in IH by done. lia.
    + rewrite decide_False by (rewrite Hs; by intros [_ [? ?]]).
      rewrite decide_True by done. simpl.
      rewrite map_size_insert_None in IH by done. lia.
Qed.

End bookkeeping_facts.

(** ** The number printed and the codes left by the bookkeeping *)

Section final_code_facts.

Lemma qualifying_tail (m : rmatch) (ms : list rmatch) (x : N) :
  x ∈ qualifying ms → x ∈ qualifying (m :: ms).
Proof.
  intros (? & m' & ? & ?)%elem_of_qualifying.
  apply elem_of_qualifying. split; [done|]. exists m'. split; [by right|done].
Qed.

Lemma qualifying_head (m : rmatch) (ms : list rmatch) (c : N) :
  code_of m = Some c → (threshold ≤ c)%N → c ∈ qualifying (m :: ms).
Proof.
  intros Hc Hle. apply elem_of_qualifying. split; [done|].
  exists m. split; [by left|done].
Qed.

Lemma replaced_cons (m : rmatch) (ms : list rmatch) (st st1 : state) :
  loop_body st m = Some st1 →
  replaced (m :: ms) st
  = match replacement st m with
    | Some v => (m, v) :: replaced ms st1
    | None => replaced ms st1
    end.
Proof. intros B. simpl. by rewrite B. Qed.

Lemma replaced_tail (m : rmatch) (ms : list rmatch) (st st1 : state)
    (r : rmatch * N) :
  loop_body st m = Some st1 →
  r ∈ replaced ms st1 → r ∈ replaced (m :: ms) st.
Proof.
  intros B Hr. rewrite (replaced_cons _ _ _ _ B).
  destruct (replacement st m); [by right|done].
Qed.

(** [next_code] stays, or is one more than a code read or handed out. *)
Lemma process_next (ms : list rmatch) (st st' : state) :
  process ms st = Some st' →
  next_code st' = next_code st
  ∨ ∃ x, next_code st' = (x + 1)%N
         ∧ (x ∈ qualifying ms ∨ x ∈ (replaced ms st).*2).
Proof.
  revert st. induction ms as [|m ms IH]; intros st; cbn [process].
  - intros [= <-]. by left.
  - destruct (loop_body st m) as [st1|] eqn:B; cbn [mbind option_bind]; [|done].
    intros P. specialize (IH _ P).
    assert (Hlift : ∀ x, x ∈ qualifying ms ∨ x ∈ (replaced ms st1).*2 →
                    x ∈ qualifying (m :: ms) ∨ x ∈ (replaced (m :: ms) st).*2).
    { intros x [?|(r & -> & Hr)%list_elem_of_fmap]; [left; by apply qualifying_tail|].
      right. apply list_elem_of_fmap. exists r. split; [done|].
      by eapply replaced_tail. }
    assert (Hkeep : next_code st1 = next_code st →
              next_code st' = next_code st
              ∨ ∃ x, next_code st' = (x + 1)%N
                     ∧ (x ∈ qualifying (m :: ms)
                        ∨ x ∈ (replaced (m :: ms) st).*2)).
    { intros E. destruct IH as [->|(x & ? & Hx)]; [by left|right].
      exists x. split; [done|by apply Hlift]. }
    assert (Hbump : ∀ y, next_code st1 = (y + 1)%N →
              (y ∈ qualifying (m :: ms) ∨ y ∈ (replaced (m :: ms) st).*2) →
              ∃ x, next_code st' = (x + 1)%N
                   ∧ (x ∈ qualifying (m :: ms)
                      ∨ x ∈ (replaced (m :: ms) st).*2)).
    { intros y E Hy. destruct IH as [->|(x & ? & Hx)]; [by exists y|].
      exists x. split; [done|by apply Hlift]. }
    pose proof B as It. apply loop_body_iteration in It.
    pose proof (iteration_replacement _ _ _ It) as HR.
    destruct It as [? code Hc H|? code Hc H Hs|? code Hc H Hs Hn
                   |? code Hc H Hs Hn]; cbn [next_code] in *.
    + by apply Hkeep.
    + right. rewrite (replacement_spec _ _ _ Hc), decide_True in HR by done.
      apply (Hbump (next_code st)); [done|]. right.
      rewrite (replaced_cons _ _ _ _ B), (replacement_spec _ _ _ Hc),
        decide_True by done. by left.
    + right. apply (Hbump code); [done|]. left. by apply qualifying_head.
    + by apply Hkeep.
Qed.

Lemma final_codes_cons (m : rmatch) (ms : list rmatch) (st st1 : state)
    (c : N) :
  loop_body st m = Some st1 → code_of m = Some c →
  final_codes (m :: ms) st
  = default c (replacement st m) :: final_codes ms st1.
Proof. intros B Hc. simpl. by rewrite B, Hc. Qed.

Lemma loop_body_code (st st1 : state) (m : rmatch) :
  loop_body st m = Some st1 → is_Some (code_of m).
Proof.
  unfold loop_body. fold (code_of m). destruct (code_of m); [by eexists|done].
Qed.

(** With no number handed out equal to a code of the matches, the
    qualifying codes left by the bookkeeping are pairwise distinct; each is
    a code that was read or a number that was handed out, and none was in
    [seen_codes] before. *)
Lemma final_codes_nodup (ms : list rmatch) (st st' : state) :
  process ms st = Some st' →
  above_seen st → (threshold ≤ next_code st)%N →
  Forall (λ r, r.2 ∉ qualifying ms) (replaced ms st) →
  NoDup (filter (λ c, (threshold ≤ c)%N) (final_codes ms st))
  ∧ (∀ x, x ∈ filter (λ c, (threshold ≤ c)%N) (final_codes ms st) →
       seen_codes st !! x = None
       ∧ (x ∈ qualifying ms
          ∨ ((next_code st ≤ x)%N ∧ x ∈ (replaced ms st).*2))).
Proof.
  revert st. induction ms as [|m ms IH]; intros st.
  - intros _ _ _ _. simpl. split; [constructor|]. by intros x ?%elem_of_nil.
  - intros P Hinv Hthr Hfree. cbn [process] in P.
    destruct (loop_body st m) as [st1|] eqn:B; cbn [mbind option_bind] in P;
      [|done].
    destruct (loop_body_code _ _ _ B) as [c Hc].
    rewrite (final_codes_cons _ _ _ _ _ B Hc).
    pose proof B as It. apply loop_body_iteration in It.
    destruct (iteration_invariant _ _ _ It Hinv) as (Hinv1 & Hn1 & Hs1).
    pose proof (iteration_replacement _ _ _ It) as HR.
    assert (Hnone : ∀ x, seen_codes st1 !! x = None → seen_codes st !! x = None).
    { intros x E. destruct (seen_codes st !! x) eqn:E'; [|done].
      destruct (Hs1 x (mk_is_Some _ _ E')) as [? ?]. congruence. }
    rewrite (replaced_cons _ _ _ _ B) in Hfree |- *.
    rewrite (replacement_spec _ _ _ Hc) in HR, Hfree |- *.
    destruct (decide ((threshold ≤ c)%N ∧ is_Some (seen_codes st !! c)))
      as [D|D].
    + (* renumbered *)
      destruct D as [Hle Hseen]. destruct HR as (_ & Hv & Hseen1 & _).
      apply Forall_cons in Hfree as [Hv_free Hfree]. cbn [snd] in Hv_free.
      destruct (IH st1 P Hinv1 ltac:(lia)) as [Hnd Hx].
      { eapply Forall_impl; [exact Hfree|]. cbn beta.
        intros r Hr ?. by apply Hr, qualifying_tail. }
      cbn [from_option id]. rewrite filter_cons, decide_True by lia. split.
      * constructor; [|done]. intros Hin.
        destruct (Hx _ Hin) as (_ & [Hin'|[Hge _]]).
        -- by apply Hv_free, qualifying_tail.
        -- lia.
      * intros x [->|Hin]%elem_of_cons.
        -- split.
           ++ destruct (seen_codes st !! next_code st) eqn:E; [|done].
              pose proof (Hinv _ (mk_is_Some _ _ E)). lia.
           ++ right. split; [lia|]. by left.
        -- destruct (Hx _ Hin) as (E & [Hin'|[Hge Hin']]).
           ++ split; [by apply Hnone|]. left. by apply qualifying_tail.
           ++ split; [by apply Hnone|]. right. split; [lia|by right].
    + (* kept *)
      destruct (IH st1 P Hinv1 ltac:(lia)) as [Hnd Hx].
      { eapply Forall_impl; [exact Hfree|]. cbn beta.
        intros r Hr ?. by apply Hr, qualifying_tail. }
      cbn [from_option id]. rewrite filter_cons.
      destruct (decide (threshold ≤ c)%N) as [Hle|Hle].
      * assert (Hfresh : seen_codes st !! c = None).
        { destruct (seen_codes st !! c) eqn:E; [|done].
          destruct D. split; [done|by eexists]. }
        assert (Hrec : is_Some (seen_codes st1 !! c))
          by (by eapply iteration_records).
        split.
        -- constructor; [|done]. intros Hin. destruct (Hx _ Hin) as (E & _).
           destruct Hrec as [? ?]. congruence.
        -- intros x [->|Hin]%elem_of_cons.
           ++ split; [done|]. left. by apply qualifying_head.
           ++ destruct (Hx _ Hin) as (E & [Hin'|[Hge Hin']]).
              ** split; [by apply Hnone|]. left. by apply qualifying_tail.
              ** split; [by apply Hnone|]. right. split; [lia|done].
      * split; [done|]. intros x Hin.
        destruct (Hx _ Hin) as (E & [Hin'|[Hge Hin']]).
        -- split; [by apply Hnone|]. left. by apply qualifying_tail.
        -- split; [by apply Hnone|]. right. split; [lia|done].
Qed.

(** Every code read stays in the list, at its first occurrence, unless it
    was in [seen_codes] before; every number handed out is in the list. *)
Lemma final_codes_complete (ms : list rmatch) (st st' : state) :
  process ms st = Some st' → (threshold ≤ next_code st)%N →
  (∀ x, x ∈ qualifying ms →
     is_Some (seen_codes st !! x)
     ∨ x ∈ filter (λ c, (threshold ≤ c)%N) (final_codes ms st))
  ∧ (∀ x, x ∈ (replaced ms st).*2 →
       x ∈ filter (λ c, (threshold ≤ c)%N) (final_codes ms st)).
Proof.
  revert st. induction ms as [|m ms IH]; intros st.
  - intros _ _. simpl. split; by intros x ?%elem_of_nil.
  - intros P Hthr. cbn [process] in P.
    destruct (loop_body st m) as [st1|] eqn:B; cbn [mbind option_bind] in P;
      [|done].
    destruct (loop_body_code _ _ _ B) as [c Hc].
    rewrite (final_codes_cons _ _ _ _ _ B Hc).
    pose proof B as It. apply loop_body_iteration in It.
    pose proof (iteration_replacement _ _ _ It) as HR.
    assert (Hn1 : (next_code st ≤ next_code st1)%N).
    { destruct It; cbn [next_code]; lia. }
    destruct (IH st1 P ltac:(lia)) as [HQ HRp].
    rewrite (replaced_cons _ _ _ _ B).
    rewrite (replacement_spec _ _ _ Hc) in HR |- *.
    rewrite (qualifying_cons _ _ _ Hc). rewrite filter_cons.
    destruct (decide ((threshold ≤ c)%N ∧ is_Some (seen_codes st !! c)))
      as [D|D]; cbn [from_option id].
    + destruct D as [Hle Hseen]. destruct HR as (_ & _ & Hseen1 & _).
      rewrite !decide_True by lia. split.
      * intros x [->|Hin]%elem_of_cons; [by left|].
        destruct (HQ _ Hin) as [Hs|Hs]; [left; by rewrite <-Hseen1|right; by right].
      * intros x [->|Hin]%elem_of_cons; [by left|]. right. by apply HRp.
    + destruct (decide (threshold ≤ c)%N) as [Hle|Hle].
      * assert (Hfresh : seen_codes st !! c = None).
        { destruct (seen_codes st !! c) eqn:E; [|done].
          destruct D. split; [done|by eexists]. }
        assert (Hs1 : ∀ x, is_Some (seen_codes st1 !! x) →
                      x = c ∨ is_Some (seen_codes st !! x)).
        { intros x. destruct It as [ | |? code Hc' ? ? ?|? code Hc' ? ? ?];
            cbn [seen_codes]; try (intros ?; by right);
            rewrite lookup_insert; case_decide; try (intros ?; by right);
            intros _; left; congruence. }
        split.
        -- intros x [->|Hin]%elem_of_cons; [right; by left|].
           destruct (HQ _ Hin) as [Hs|Hs]; [|right; by right].
           destruct (Hs1 _ Hs) as [->|?]; [right; by left|by left].
        -- intros x Hin. right. by apply HRp.
      * assert (E : seen_codes st1 = seen_codes st).
        { destruct It as [| |? code Hc' ? ? ?|? code Hc' ? ? ?];
            cbn [seen_codes]; try done; simplify_eq; lia. }
        rewrite E in HQ. split; [done|]. intros x Hin. by apply HRp.
Qed.

End final_code_facts.

(** ** Splices on the text *)

Section text_facts.

Lemma splice_lookup (c new : text) (m : rmatch) :
  m_start2 m ≤ m_end2 m → m_end2 m ≤ length c →
  length new = m_end2 m - m_start2 m →
  length (splice c m new) = length c
  ∧ ∀ i, splice c m new !! i
         = if decide (in_digits i m) then new !! (i - m_start2 m) else c !! i.
Proof.
  intros Hse He Hn. unfold splice, in_digits. split.
  - rewrite !length_app, length_take, length_drop. lia.
  - intros i. case_decide as D.
    + rewrite lookup_app_r by (rewrite length_take; lia). rewrite length_take.
      rewrite lookup_app_l by lia. f_equal. lia.
    + destruct (decide (i < m_start2 m)).
      * rewrite lookup_app_l by (rewrite length_take; lia).
        by rewrite lookup_take_lt.
      * rewrite lookup_app_r by (rewrite length_take; lia). rewrite length_take.
        rewrite lookup_app_r by lia. rewrite lookup_drop. f_equal. lia.
Qed.

Lemma slice_lookup (s e j : nat) (l : text) :
  slice s e l !! j = if decide (j < e - s) then l !! (s + j) else None.
Proof. unfold slice. rewrite lookup_take. case_decide; [|done]. apply lookup_drop. Qed.

Lemma slice_ext (s e : nat) (l k : text) :
  (∀ i, s ≤ i < e → l !! i = k !! i) → slice s e l = slice s e k.
Proof.
  intros H. apply list_eq. intros j. rewrite !slice_lookup.
  case_decide; [apply H; lia|done].
Qed.

(** The sorted matches that come after [m] start after its end. *)
Lemma later_digits_disjoint (m : rmatch) (ms : list rmatch) (n i : nat) :
  Forall (λ b, m_end m ≤ m_start b) ms → Forall (span_ok n) ms →
  span_ok n m → i < m_end m →
  ∀ m', m' ∈ ms → ¬ in_digits i m'.
Proof.
  intros Hafter Hok Hm Hi m' Hin [? ?].
  rewrite Forall_forall in Hafter, Hok.
  pose proof (Hafter _ Hin). destruct (Hok _ Hin) as (? & ? & ? & ?). lia.
Qed.

(** When every number written has the length of the integer it replaces,
    the text keeps its length, changes nowhere else, and holds each number
    at the span of the match it was written for. *)
Lemma process_aligned (ms : list rmatch) (st st' : state) :
  process ms st = Some st' →
  StronglySorted (λ a b, m_end a ≤ m_start b) ms →
  Forall (span_ok (length (content st))) ms →
  aligned (replaced ms st) →
  length (content st') = length (content st)
  ∧ (∀ i, (∀ r, r ∈ replaced ms st → ¬ in_digits i r.1) →
          content st' !! i = content st !! i)
  ∧ (∀ r i, r ∈ replaced ms st → in_digits i r.1 →
            content st' !! i = str r.2 !! (i - m_start2 r.1)).
Proof.
  revert st. induction ms as [|m ms IH]; intros st; cbn [process].
  - intros [= <-] _ _ _. split_and!; [done..|]. by intros r i ?%elem_of_nil.
  - destruct (loop_body st m) as [st1|] eqn:B; cbn [mbind option_bind]; [|done].
    intros P [Hsorted Hafter]%StronglySorted_inv [Hm Hok]%Forall_cons Hal.
    rewrite (replaced_cons _ _ _ _ B) in Hal |- *.
    pose proof B as It. apply loop_body_iteration in It.
    pose proof (iteration_replacement _ _ _ It) as HR.
    destruct (replacement st m) as [v|].
    + destruct HR as (_ & _ & _ & Hct).
      apply Forall_cons in Hal as [Hv Hal]. cbn [fst snd] in Hv.
      pose proof Hm as (? & ? & ? & ?).
      destruct (splice_lookup (content st) (str v) m) as [Hlen Hlk];
        [lia..|done|].
      rewrite <-Hct in Hlen, Hlk.
      destruct (IH st1 P Hsorted) as (Hl & Hout & Hin); [by rewrite Hlen|done|].
      assert (Hdis : ∀ i, i < m_end m →
                ∀ r, r ∈ replaced ms st1 → ¬ in_digits i r.1).
      { intros i Hi r Hr. eapply later_digits_disjoint; eauto.
        by eapply replaced_elem. }
      split_and!.
      * by rewrite Hl.
      * intros i Hi. rewrite Hout by (intros r Hr; apply Hi; by right).
        rewrite Hlk, decide_False; [done|]. apply (Hi (m, v)). by left.
      * intros r i [->|Hr]%elem_of_cons Hi; [|by apply Hin].
        cbn [fst snd] in *. rewrite Hout.
        -- by rewrite Hlk, decide_True.
        -- apply Hdis. destruct Hi. lia.
    + rewrite <-HR. apply IH; [done..|by rewrite HR|done].
Qed.

(** The text up to a place that no later splice reaches is kept. *)
Lemma prefix_kept (ms : list rmatch) (st st' : state) (k : nat) :
  process ms st = Some st' →
  Forall (λ m, k ≤ m_start2 m) ms → k ≤ length (content st) →
  take k (content st') = take k (content st) ∧ k ≤ length (content st').
Proof.
  revert st. induction ms as [|m ms IH]; intros st; cbn [process].
  - by intros [= <-] _ ?.
  - destruct (loop_body st m) as [st1|] eqn:B; cbn [mbind option_bind]; [|done].
    intros P [Hm Hms]%Forall_cons Hk.
    apply loop_body_iteration, iteration_replacement in B.
    destruct (replacement st m) as [v|].
    + destruct B as (_ & _ & _ & Hct).
      assert (Hpre : take k (content st1) = take k (content st)
                     ∧ k ≤ length (content st1)).
      { rewrite Hct. unfold splice. split.
        - rewrite take_app_le by (rewrite length_take; lia).
          rewrite take_take. f_equal. lia.
        - rewrite length_app, length_take. lia. }
      destruct Hpre as [E Hk1]. destruct (IH st1 P Hms Hk1) as [E' ?].
      split; [congruence|done].
    + rewrite <-B. apply IH; [done..|by rewrite B].
Qed.

(** ** Texts that the pattern cannot tell apart *)

Lemma greedy_related (R : ascii → ascii → Prop) (p : ascii → bool)
    (k k' : text → option (list nat)) (s t : text) :
  (∀ c d, R c d → p c = p d) →
  (∀ s' t', Forall2 R s' t' → k s' = k' t') →
  Forall2 R s t → greedy p k s = greedy p k' t.
Proof.
  intros Hp Hk H. induction H as [|c d s t Hcd Hst IH]; cbn [greedy].
  - by rewrite (Hk [] []).
  - rewrite (Hp _ _ Hcd), IH, (Hk (c :: s) (d :: t)) by by constructor.
    done.
Qed.

Lemma match_items_related (R : ascii → ascii → Prop) (its : list item)
    (s t : text) :
  Forall (λ it, ∀ c d, R c d → atom_ok it.1 c = atom_ok it.1 d) its →
  Forall2 R s t → match_items its s = match_items its t.
Proof.
  intros Hits. revert s t.
  induction Hits as [|[a q] its Ha _ IH]; intros s t Hst; [done|].
  cbn [match_items fst] in *. destruct q.
  - destruct Hst as [|c d s t Hcd Hst]; [done|].
    by rewrite (Ha _ _ Hcd), (IH _ _ Hst).
  - by rewrite (greedy_related R (atom_ok a) (match_items its) (match_items its)
                  s t Ha IH Hst).
  - destruct Hst as [|c d s t Hcd Hst]; [done|].
    rewrite (Ha _ _ Hcd).
    by rewrite (greedy_related R (atom_ok a) (match_items its) (match_items its)
                  s t Ha IH Hst).
Qed.

Lemma match_pattern_similar (s t : text) :
  Forall2 similar s t → match_items pattern s = match_items pattern t.
Proof.
  apply match_items_related. apply Forall_forall. intros it Hit c d Hcd.
  by apply Hcd.
Qed.

Lemma scan_similar (orig orig' s t : text) (pos skip : nat) :
  Forall2 similar s t →
  scan orig' t pos skip = rebase orig' <$> scan orig s pos skip.
Proof.
  intros H. revert pos skip.
  induction H as [|c d s t Hcd Hst IH]; intros pos skip; cbn [scan].
  - rewrite match_pattern_nil. by destruct skip.
  - destruct skip as [|k]; [|apply IH].
    rewrite <-(match_pattern_similar (c :: s) (d :: t)) by by constructor.
    destruct (match_items pattern (c :: s)) as [lens|]; [|apply IH].
    rewrite fmap_cons, <-IH. done.
Qed.

(** ** The codes of the rewritten text *)

Lemma spliced_slice (c : text) (m : rmatch) (v : N) :
  m_start2 m ≤ m_end2 m → m_end2 m ≤ length c →
  length (str v) = m_end2 m - m_start2 m →
  slice (m_start2 m) (m_end2 m) (splice c m (str v)) = str v.
Proof.
  intros ? ? Hv. destruct (splice_lookup c (str v) m) as [_ Hlk]; [done..|].
  apply list_eq. intros j. rewrite slice_lookup. case_decide.
  - rewrite Hlk, decide_True by (unfold in_digits; lia). f_equal. lia.
  - symmetry. apply lookup_ge_None. lia.
Qed.

(** Read again at the spans of the matches, the final text gives the codes
    left by the bookkeeping. *)
Lemma output_codes (ms : list rmatch) (st st' : state) :
  process ms st = Some st' →
  StronglySorted (λ a b, m_end a ≤ m_start b) ms →
  Forall (span_ok (length (content st))) ms →
  aligned (replaced ms st) →
  (∀ m, m ∈ ms →
     slice (m_start2 m) (m_end2 m) (content st) = group2_text m) →
  codes (rebase (content st') <$> ms) = final_codes ms st.
Proof.
  revert st. induction ms as [|m ms IH]; intros st; [done|].
  intros P Hsorted Hoks Hal Hgr.
  pose proof (process_aligned _ _ _ P Hsorted Hoks Hal) as (Hl' & _ & _).
  cbn [process] in P.
  destruct (loop_body st m) as [st1|] eqn:B; cbn [mbind option_bind] in P;
    [|done].
  apply StronglySorted_inv in Hsorted as [Hsorted Hafter].
  apply Forall_cons in Hoks as [Hm Hok].
  destruct (loop_body_code _ _ _ B) as [c Hc].
  rewrite (final_codes_cons _ _ _ _ _ B Hc).
  rewrite (replaced_cons _ _ _ _ B) in Hal.
  pose proof B as It. apply loop_body_iteration in It.
  pose proof (iteration_replacement _ _ _ It) as HR.
  pose proof Hm as (? & ? & ? & ?).
  assert (Hlen1 : length (content st1) = length (content st)).
  { destruct (replacement st m) as [v|]; [|by rewrite HR].
    destruct HR as (_ & _ & _ & ->). apply Forall_cons in Hal as [Hv _].
    by apply splice_lookup; [lia..|]. }
  assert (Hal1 : aligned (replaced ms st1)).
  { destruct (replacement st m); [by apply Forall_cons in Hal as [_ ?]|done]. }
  assert (Hok1 : Forall (span_ok (length (content st1))) ms)
    by (by rewrite Hlen1).
  destruct (process_aligned _ _ _ P Hsorted Hok1 Hal1) as (_ & Hout & _).
  assert (Hhead : slice (m_start2 m) (m_end2 m) (content st')
                  = slice (m_start2 m) (m_end2 m) (content st1)).
  { apply slice_ext. intros i Hi. apply Hout. intros r Hr.
    apply (later_digits_disjoint m ms (length (content st1)) i Hafter Hok1);
      [by rewrite Hlen1|lia|by eapply replaced_elem]. }
  assert (Htail : ∀ m', m' ∈ ms →
            slice (m_start2 m') (m_end2 m') (content st1) = group2_text m').
  { intros m' Hin. rewrite <-(Hgr m') by by right.
    destruct (replacement st m) as [v|]; [|by rewrite HR].
    destruct HR as (_ & _ & _ & ->). apply Forall_cons in Hal as [Hv _].
    destruct (splice_lookup (content st) (str v) m) as [_ Hlk]; [lia..|done|].
    apply slice_ext. intros i Hi. rewrite Hlk, decide_False; [done|].
    rewrite Forall_forall in Hafter, Hok. pose proof (Hafter _ Hin).
    destruct (Hok _ Hin) as (? & ? & ? & ?). unfold in_digits. lia. }
  rewrite fmap_cons. unfold codes at 1. cbn [omap list_omap].
  fold (codes (rebase (content st') <$> ms)).
  rewrite (IH st1 P Hsorted Hok1 Hal1 Htail).
  assert (Hcode : code_of (rebase (content st') m)
                  = Some (default c (replacement st m))).
  { unfold code_of, group2_text. cbn [rebase m_string m_start2 m_end2].
    rewrite Hhead. destruct (replacement st m) as [v|].
    - destruct HR as (_ & _ & _ & ->). apply Forall_cons in Hal as [Hv _].
      rewrite spliced_slice by (done || lia). apply int_str.
    - rewrite HR, (Hgr m) by by left. exact Hc. }
  by rewrite Hcode.
Qed.

End text_facts.

(** ** Runs in which every number written fits *)

Section aligned_run_facts.

Lemma all_of_lookup (p : ascii → bool) (s : text) (j : nat) (c : ascii) :
  all_of p s → s !! j = Some c → p c = true.
Proof.
  unfold all_of. revert j. induction s as [|d s IH]; intros j H; [done|].
  cbn [forallb] in H. apply andb_prop in H as [Hd Hs].
  destruct j as [|j]; cbn; [by intros [= <-]|by apply IH].
Qed.

Lemma finditer_spans (file : text) :
  Forall (span_ok (length file)) (finditer file).
Proof.
  apply Forall_forall. intros m [p Hp]%finditer_located.
  destruct (located_end _ _ _ Hp) as [_ ?].
  destruct Hp as ((_ & _ & _ & _ & _ & _ & Hne & _) & _ & _ & H2 & He2 & He).
  apply length_pos_nonnil in Hne. unfold span_ok. lia.
Qed.

Lemma finditer_string (file : text) (m : rmatch) :
  m ∈ finditer file → m_string m = file.
Proof. by intros [p (_ & ? & _)]%finditer_located. Qed.

Lemma finditer_digits (file : text) (m : rmatch) (i : nat) (c : ascii) :
  m ∈ finditer file → in_digits i m → file !! i = Some c →
  PyChar.is_digit c = true.
Proof.
  intros Hin [? ?] Hc. destruct (finditer_located _ _ Hin) as [p Hp].
  pose proof (located_group2 _ _ _ Hp) as Hg.
  destruct Hp as ((_ & _ & _ & _ & _ & _ & _ & Hd) & Hs & _).
  apply (all_of_lookup _ _ (i - m_start2 m) _ Hd). rewrite <-Hg.
  unfold group2_text. rewrite Hs, slice_lookup, decide_True by lia.
  rewrite <-Hc. f_equal. lia.
Qed.

(** What an aligned run leaves: a text of the same length, equal to the
    text read outside the integers of the renumbered matches, holding the
    numbers handed out there, and matched by the pattern at the same spans,
    where it carries the codes left by the bookkeeping. *)
Lemma aligned_run (file : text) :
  aligned (replaced (finditer file) (init file)) →
  ∃ st, process (finditer file) (init file) = Some st
        ∧ fix_error_codes file = Some (content st, next_code st)
        ∧ length (content st) = length file
        ∧ (∀ i, (∀ r, r ∈ replaced (finditer file) (init file) →
                      ¬ in_digits i r.1) →
                content st !! i = file !! i)
        ∧ (∀ r, r ∈ replaced (finditer file) (init file) →
                slice (m_start2 r.1) (m_end2 r.1) (content st) = str r.2)
        ∧ finditer (content st) = rebase (content st) <$> finditer file
        ∧ qualifying_codes (content st)
          = filter (λ c, (threshold ≤ c)%N)
              (final_codes (finditer file) (init file)).
Proof.
  intros Hal. destruct (fix_error_codes_total file) as (st & P & E).
  exists st. split; [done|]. split; [done|].
  pose proof (scan_ordered file file 0 0 eq_refl) as Hsorted.
  fold (finditer file) in Hsorted.
  pose proof (finditer_spans file) as Hspans.
  destruct (process_aligned _ _ _ P Hsorted Hspans Hal) as (Hl & Hout & Hin).
  cbn [init content] in Hl, Hout, Hin.
  assert (Hslices : ∀ r, r ∈ replaced (finditer file) (init file) →
            slice (m_start2 r.1) (m_end2 r.1) (content st) = str r.2).
  { intros r Hr. pose proof (proj1 (Forall_forall _ _) Hal _ Hr) as Hv.
    apply list_eq. intros j. rewrite slice_lookup. case_decide.
    - rewrite (Hin r) by (done || unfold in_digits; lia). f_equal. lia.
    - symmetry. apply lookup_ge_None. cbn beta in Hv. lia. }
  assert (Hsim : Forall2 similar file (content st)).
  { apply Forall2_same_length_lookup. split; [done|]. intros i x y Hx Hy.
    destruct (decide (Exists (λ r, in_digits i r.1)
                        (replaced (finditer file) (init file)))) as [Hex|Hno].
    - apply Exists_exists in Hex as (r & Hr & Hi).
      apply digits_similar.
      + eapply finditer_digits; [by eapply replaced_elem|done..].
      + rewrite (Hin r i Hr Hi) in Hy.
        eapply all_of_lookup; [apply (str_digits r.2)|done].
    - rewrite Hout in Hy.
      + assert (x = y) as -> by congruence. by intros it _.
      + intros r Hr Hi. apply Hno, Exists_exists. eauto. }
  assert (Hscan : finditer (content st) = rebase (content st) <$> finditer file).
  { unfold finditer. by apply scan_similar. }
  split_and!; [done..|].
  unfold qualifying_codes, qualifying. rewrite Hscan. f_equal.
  apply (output_codes _ _ _ P Hsorted Hspans Hal).
  intros m Hm. cbn [init content]. unfold group2_text.
  by rewrite (finditer_string _ _ Hm).
Qed.

(** The number printed is the least number that is at least the start code
    and above every qualifying code read and every number handed out. *)
Lemma printed_number (ms : list rmatch) (st : state) (file : text) :
  process ms (init file) = Some st →
  (start_code ≤ next_code st)%N
  ∧ (∀ x, x ∈ qualifying ms → (x < next_code st)%N)
  ∧ (∀ x, x ∈ (replaced ms (init file)).*2 → (x < next_code st)%N)
  ∧ (∀ k, (start_code ≤ k)%N →
          (∀ x, x ∈ qualifying ms → (x < k)%N) →
          (∀ x, x ∈ (replaced ms (init file)).*2 → (x < k)%N) →
          (next_code st ≤ k)%N).
Proof.
  intros P.
  destruct (process_invariant _ _ _ P (init_above_seen file))
    as (Hinv & Hge & _ & HF & _ & HQ).
  cbn [init next_code] in Hge. split_and!; [done| | |].
  - intros x Hx. by apply Hinv, HQ.
  - intros x Hx. rewrite replaced_handouts in Hx.
    apply list_elem_of_fmap in Hx as (e & -> & He).
    rewrite Forall_forall in HF. by destruct (HF _ He) as (_ & ? & _).
  - intros k Hk Hq Hr.
    destruct (process_next _ _ _ P) as [->|(x & -> & [Hx|Hx])];
      [done|pose proof (Hq _ Hx)|pose proof (Hr _ Hx)]; lia.
Qed.

End aligned_run_facts.

(** ** Numbers written and the codes they replace *)

Section renumbering_facts.

(** A number written is above the code it replaces. *)
Lemma replaced_greater (ms : list rmatch) (st st' : state) :
  process ms st = Some st' → above_seen st →
  Forall (λ r, ∃ c, code_of r.1 = Some c
                    ∧ (threshold ≤ c)%N ∧ (c < r.2)%N
                    ∧ (next_code st ≤ r.2)%N)
    (replaced ms st).
Proof.
  revert st. induction ms as [|m ms IH]; intros st; cbn [process].
  - intros _ _. constructor.
  - destruct (loop_body st m) as [st1|] eqn:B; cbn [mbind option_bind]; [|done].
    intros P Hinv. rewrite (replaced_cons _ _ _ _ B).
    destruct (loop_body_code _ _ _ B) as [c Hc].
    pose proof B as It. apply loop_body_iteration in It.
    destruct (iteration_invariant _ _ _ It Hinv) as (Hinv1 & Hn1 & _).
    assert (Htail : Forall (λ r, ∃ c, code_of r.1 = Some c
                                      ∧ (threshold ≤ c)%N ∧ (c < r.2)%N
                                      ∧ (next_code st ≤ r.2)%N)
                      (replaced ms st1)).
    { eapply Forall_impl; [exact (IH _ P Hinv1)|]. cbn beta.
      intros r (c' & ? & ? & ? & ?). exists c'. split_and!; [done..|lia]. }
    rewrite (replacement_spec _ _ _ Hc).
    destruct (decide ((threshold ≤ c)%N ∧ is_Some (seen_codes st !! c)))
      as [[Hle Hs]|_]; [|done].
    constructor; [|done]. exists c. cbn [fst snd].
    pose proof (Hinv _ Hs). split_and!; [done..|lia].
Qed.

End renumbering_facts.

(** * Further properties *)

(** X2.  After the loop [seen_codes] holds exactly the qualifying codes of
    the text read, each with the value [True]; numbers handed out are not
    recorded. *)
Theorem seen_codes_are_qualifying_codes (file : text) :
  ∃ st, process (finditer file) (init file) = Some st
        ∧ ∀ c, seen_codes st !! c
               = if decide (c ∈ qualifying_codes file) then Some true
                 else None.
Proof.
  destruct (fix_error_codes_total file) as (st & P & _).
  exists st. split; [done|]. intros c. rewrite (process_seen _ _ _ P c).
  cbn [init seen_codes]. by rewrite lookup_empty.
Qed.

(** X3.  The match at position [k] is renumbered exactly when its code is
    at least the threshold and one of the [k] matches before it carries the
    same code; the number written is then the current [next_code]. *)
Theorem renumbered_iff_code_seen_earlier (file : text) (k : nat)
    (m : rmatch) :
  finditer file !! k = Some m →
  ∃ st c,
    process (take k (finditer file)) (init file) = Some st
    ∧ code_of m = Some c
    ∧ replacement st m
      = if decide ((threshold ≤ c)%N ∧ c ∈ qualifying (take k (finditer file)))
        then Some (next_code st) else None.
Proof.
  intros Hk. destruct (fix_error_codes_total file) as (st' & P' & _).
  destruct (process_take (finditer file) (init file) k) as [st P];
    [by rewrite P'|].
  destruct (finditer_code file m) as [c Hc];
    [by eapply list_elem_of_lookup_2|].
  exists st, c. split_and!; [done..|].
  rewrite (replacement_spec _ _ _ Hc). apply decide_ext.
  rewrite (process_seen _ _ _ P c). cbn [init seen_codes].
  rewrite lookup_empty.
  destruct (decide (c ∈ qualifying (take k (finditer file)))) as [Hq|Hq];
    split; intros [? Hx]; split; try done;
    first [by eexists|by destruct Hx].
Qed.

(** X3 at the second match of the three-line text of C1. *)
Lemma renumbered_iff_code_seen_earlier_witness :
  ∃ m, finditer collision_input !! 1 = Some m
       ∧ ∃ st c,
           process (take 1 (finditer collision_input)) (init collision_input)
           = Some st
           ∧ code_of m = Some c
           ∧ replacement st m
             = if decide ((threshold ≤ c)%N
                          ∧ c ∈ qualifying (take 1 (finditer collision_input)))
               then Some (next_code st) else None.
Proof.
  eexists. split; [vm_compute; reflexivity|].
  apply (renumbered_iff_code_seen_earlier collision_input 1).
  vm_compute. reflexivity.
Defined.

(** X4.  The number of renumbered matches is the number of matches with a
    qualifying code minus the number of distinct qualifying codes. *)
Theorem renumberings_counted (file : text) :
  length (replaced (finditer file) (init file))
  + length (remove_dups (qualifying_codes file))
  = length (qualifying_codes file).
Proof.
  destruct (fix_error_codes_total file) as (st & P & _).
  pose proof (process_count _ _ _ P) as Hcount.
  cbn [init seen_codes] in Hcount. rewrite map_size_empty in Hcount.
  assert (Hdom : dom (seen_codes st)
                 = (list_to_set (remove_dups (qualifying_codes file)) : gset N)).
  { apply set_eq. intros c.
    rewrite elem_of_dom, elem_of_list_to_set, elem_of_remove_dups.
    rewrite (process_seen _ _ _ P c). cbn [init seen_codes].
    rewrite lookup_empty. fold (qualifying_codes file).
    case_decide; split; try done;
      first [by intros [? ?]|intros; by eexists]. }
  rewrite <-(size_dom (D := gset N)), Hdom in Hcount.
  rewrite size_list_to_set in Hcount by apply NoDup_remove_dups.
  unfold qualifying_codes in *. lia.
Qed.

(** X5.  The number printed is the least number that is at least 2135 and
    greater than every qualifying code read and every number handed out. *)
Theorem printed_number_is_least_bound (file : text) :
  ∃ out n,
    fix_error_codes file = Some (out, n)
    ∧ (start_code ≤ n)%N
    ∧ (∀ x, x ∈ qualifying_codes file → (x < n)%N)
    ∧ (∀ x, x ∈ (replaced (finditer file) (init file)).*2 → (x < n)%N)
    ∧ (∀ k, (start_code ≤ k)%N →
            (∀ x, x ∈ qualifying_codes file → (x < k)%N) →
            (∀ x, x ∈ (replaced (finditer file) (init file)).*2 → (x < k)%N) →
            (n ≤ k)%N).
Proof.
  destruct (fix_error_codes_total file) as (st & P & E).
  exists (content st), (next_code st). split; [done|].
  apply (printed_number _ _ _ P).
Qed.

(** X6.  Whatever the lengths of the numbers written, the text before the
    integer of a match is written back unchanged when no earlier match is
    renumbered: splices never reach in front of the first renumbering. *)
Theorem text_before_first_renumbering_kept (file : text) (k : nat)
    (m : rmatch) :
  finditer file !! k = Some m →
  replaced (take k (finditer file)) (init file) = [] →
  ∃ out n, fix_error_codes file = Some (out, n)
           ∧ take (m_start2 m) out = take (m_start2 m) file.
Proof.
  intros Hk Hnone. destruct (fix_error_codes_total file) as (st & P & E).
  exists (content st), (next_code st). split; [done|].
  pose proof (scan_ordered file file 0 0 eq_refl) as Hsorted.
  fold (finditer file) in Hsorted.
  pose proof (finditer_spans file) as Hspans.
  rewrite <-(take_drop_middle _ _ _ Hk) in P, Hsorted, Hspans.
  rewrite process_app in P.
  destruct (process (take k (finditer file)) (init file)) as [stk|] eqn:Pk;
    [|done].
  cbn [mbind option_bind] in P.
  pose proof (replaced_nil_content _ _ _ Pk Hnone) as Hck.
  cbn [init content] in Hck.
  apply StronglySorted_app_1_r, StronglySorted_inv in Hsorted
    as [_ Hafter].
  apply Forall_app in Hspans as [_ [Hm Hrest]%Forall_cons].
  destruct (prefix_kept _ _ _ (m_start2 m) P) as [Hpre _].
  - constructor; [done|]. apply Forall_forall. intros b Hb.
    rewrite Forall_forall in Hafter, Hrest. pose proof (Hafter _ Hb).
    destruct (Hrest _ Hb) as (? & _). destruct Hm as (_ & ? & ? & _). lia.
  - rewrite Hck. destruct Hm as (_ & ? & ? & ?). lia.
  - by rewrite Hpre, Hck.
Qed.

(** X6 at the second match of the text of C3, the first to be
    renumbered. *)
Lemma text_before_first_renumbering_kept_witness :
  ∃ m, finditer shift_input !! 1 = Some m
       ∧ replaced (take 1 (finditer shift_input)) (init shift_input) = []
       ∧ ∃ out n, fix_error_codes shift_input = Some (out, n)
                  ∧ take (m_start2 m) out = take (m_start2 m) shift_input.
Proof.
  eexists. split; [vm_compute; reflexivity|].
  assert (H : replaced (take 1 (finditer shift_input)) (init shift_input) = [])
    by (vm_compute; reflexivity).
  split; [exact H|].
  apply (text_before_first_renumbering_kept shift_input 1);
    [vm_compute; reflexivity|exact H].
Defined.

(** X7.  When every number written has as many digits as the integer it
    replaces, the text written back has the length of the text read, equals
    it at every offset outside the integers of the renumbered matches, and
    holds at each of those integers the decimal text of the number handed
    out for it. *)
Theorem aligned_run_rewrites_only_renumbered_integers (file : text) :
  aligned (replaced (finditer file) (init file)) →
  ∃ out n,
    fix_error_codes file = Some (out, n)
    ∧ length out = length file
    ∧ (∀ i, (∀ r, r ∈ replaced (finditer file) (init file) →
                  ¬ in_digits i r.1) →
            out !! i = file !! i)
    ∧ (∀ r, r ∈ replaced (finditer file) (init file) →
            slice (m_start2 r.1) (m_end2 r.1) out = str r.2).
Proof.
  intros (st & _ & E & Hl & Hout & Hin & _)%aligned_run.
  exists (content st), (next_code st). by split_and!.
Qed.

(** X8.  Under the same condition the pattern matches the text written
    back at the spans at which it matched the text read. *)
Theorem aligned_run_keeps_match_spans (file : text) :
  aligned (replaced (finditer file) (init file)) →
  ∃ out n, fix_error_codes file = Some (out, n)
           ∧ finditer out = rebase out <$> finditer file.
Proof.
  intros (st & _ & E & _ & _ & _ & Hscan & _)%aligned_run.
  by exists (content st), (next_code st).
Qed.

(** X7 at a text with two repeated four-digit codes. *)
Lemma aligned_run_rewrites_only_renumbered_integers_witness :
  aligned (replaced (finditer repair_input) (init repair_input))
  ∧ ∃ out n,
      fix_error_codes repair_input = Some (out, n)
      ∧ length out = length repair_input
      ∧ (∀ i, (∀ r, r ∈ replaced (finditer repair_input) (init repair_input) →
                    ¬ in_digits i r.1) →
              out !! i = repair_input !! i)
      ∧ (∀ r, r ∈ replaced (finditer repair_input) (init repair_input) →
              slice (m_start2 r.1) (m_end2 r.1) out = str r.2).
Proof.
  assert (H : aligned (replaced (finditer repair_input) (init repair_input))).
  { unfold aligned. apply (bool_decide_unpack _). vm_compute. exact I. }
  split; [exact H|].
  exact (aligned_run_rewrites_only_renumbered_integers repair_input H).
Defined.

(** X8 at the same text. *)
Lemma aligned_run_keeps_match_spans_witness :
  aligned (replaced (finditer repair_input) (init repair_input))
  ∧ ∃ out n, fix_error_codes repair_input = Some (out, n)
             ∧ finditer out = rebase out <$> finditer repair_input.
Proof.
  assert (H : aligned (replaced (finditer repair_input) (init repair_input))).
  { unfold aligned. apply (bool_decide_unpack _). vm_compute. exact I. }
  split; [exact H|]. exact (aligned_run_keeps_match_spans repair_input H).
Defined.

(** X9.  When every number written has as many digits as the integer it
    replaces and no number handed out is a qualifying code of the text
    read, the qualifying codes of the text written back are pairwise
    distinct; they are the qualifying codes read and the numbers handed
    out. *)
Theorem fitting_run_leaves_unique_codes (file : text) :
  aligned (replaced (finditer file) (init file)) →
  collision_free file →
  ∃ out n,
    fix_error_codes file = Some (out, n)
    ∧ NoDup (qualifying_codes out)
    ∧ (∀ x, x ∈ qualifying_codes out ↔
            x ∈ qualifying_codes file
            ∨ x ∈ (replaced (finditer file) (init file)).*2).
Proof.
  intros (st & P & E & _ & _ & _ & _ & Hq)%aligned_run Hfree.
  exists (content st), (next_code st). split; [done|]. rewrite Hq.
  assert (Hthr : (threshold ≤ next_code (init file))%N)
    by (cbn; unfold threshold, start_code; lia).
  destruct (final_codes_nodup _ _ _ P (init_above_seen file) Hthr Hfree)
    as [Hnd Hx].
  destruct (final_codes_complete _ _ _ P Hthr) as [Hc Hr].
  split; [done|]. intros x. split.
  - intros Hin. destruct (Hx _ Hin) as (_ & [?|[_ ?]]); [by left|by right].
  - intros [Hin|Hin]; [|by apply Hr].
    destruct (Hc _ Hin) as [[? Hs]|?]; [|done].
    cbn [init seen_codes] in Hs. by rewrite lookup_empty in Hs.
Qed.

(** X9 at the text of X7. *)
Lemma fitting_run_leaves_unique_codes_witness :
  aligned (replaced (finditer repair_input) (init repair_input))
  ∧ collision_free repair_input
  ∧ ∃ out n,
      fix_error_codes repair_input = Some (out, n)
      ∧ NoDup (qualifying_codes out)
      ∧ (∀ x, x ∈ qualifying_codes out ↔
              x ∈ qualifying_codes repair_input
              ∨ x ∈ (replaced (finditer repair_input) (init repair_input)).*2).
Proof.
  assert (H : aligned (replaced (finditer repair_input) (init repair_input))).
  { unfold aligned. apply (bool_decide_unpack _). vm_compute. exact I. }
  assert (H' : collision_free repair_input).
  { unfold collision_free. apply (bool_decide_unpack _). vm_compute. exact I. }
  split; [exact H|]. split; [exact H'|].
  exact (fitting_run_leaves_unique_codes repair_input H H').
Defined.

(** X10.  Under the conditions of X9 a second run on the text written back
    changes nothing and prints the same number. *)
Theorem fitting_run_reaches_fixed_point (file : text) :
  aligned (replaced (finditer file) (init file)) →
  collision_free file →
  ∃ out n, fix_error_codes file = Some (out, n)
           ∧ fix_error_codes out = Some (out, n).
Proof.
  intros (st & P & E & _ & _ & _ & _ & Hq)%aligned_run Hfree.
  exists (content st), (next_code st). split; [done|].
  assert (Hthr : (threshold ≤ next_code (init file))%N)
    by (cbn; unfold threshold, start_code; lia).
  destruct (final_codes_nodup _ _ _ P (init_above_seen file) Hthr Hfree)
    as [Hnd Hx].
  destruct (final_codes_complete _ _ _ P Hthr) as [Hc Hr].
  rewrite <-Hq in Hnd, Hx, Hc, Hr.
  destruct (process_unique (finditer (content st)) (init (content st)))
    as (st2 & P2 & Hc2 & Hh2 & _);
    [by apply finditer_code|done|intros c _; apply lookup_empty|].
  assert (Hr2 : replaced (finditer (content st)) (init (content st)) = []).
  { apply (fmap_nil_inv snd). by rewrite replaced_handouts, Hh2. }
  destruct (printed_number _ _ _ P) as (Hs1 & Hq1 & Hr1 & Hleast1).
  destruct (printed_number _ _ _ P2) as (Hs2 & Hq2 & _ & Hleast2).
  rewrite Hr2 in Hleast2. fold (qualifying_codes (content st)) in Hq2, Hleast2.
  assert (Hn : next_code st2 = next_code st).
  { apply N.le_antisymm.
    - apply Hleast2; [done| |by intros x ?%elem_of_nil].
      intros x Hin. destruct (Hx _ Hin) as (_ & [?|[_ ?]]); auto.
    - apply Hleast1; [done| |].
      + intros x Hin. apply Hq2. destruct (Hc _ Hin) as [[? Hs]|?]; [|done].
        cbn [init seen_codes] in Hs. by rewrite lookup_empty in Hs.
      + intros x Hin. by apply Hq2, Hr. }
  unfold fix_error_codes. rewrite P2. cbn [mbind option_bind].
  by rewrite Hc2, Hn.
Qed.

(** X10 at the text of X7. *)
Lemma fitting_run_reaches_fixed_point_witness :
  aligned (replaced (finditer repair_input) (init repair_input))
  ∧ collision_free repair_input
  ∧ ∃ out n, fix_error_codes repair_input = Some (out, n)
             ∧ fix_error_codes out = Some (out, n).
Proof.
  assert (H : aligned (replaced (finditer repair_input) (init repair_input))).
  { unfold aligned. apply (bool_decide_unpack _). vm_compute. exact I. }
  assert (H' : collision_free repair_input).
  { unfold collision_free. apply (bool_decide_unpack _). vm_compute. exact I. }
  split; [exact H|]. split; [exact H'|].
  exact (fitting_run_reaches_fixed_point repair_input H H').
Defined.

(** X11.  The integer captured by a match is a whole number of the text:
    the character before it is the equals sign or a blank, and the
    character after it is the comma that ends the match. *)
Theorem captured_integer_is_whole (file : text) :
  Forall (λ m, 0 < m_start2 m
               ∧ (∃ c, file !! (m_start2 m - 1) = Some c
                       ∧ (c = "="%char ∨ PyChar.is_space c = true))
               ∧ file !! m_end2 m = Some ","%char
               ∧ m_end m = S (m_end2 m))
    (finditer file).
Proof.
  apply Forall_forall. intros m [p Hp]%finditer_located.
  destruct Hp as ((_ & _ & _ & _ & _ & Hpost & _ & _) & _
                  & (pre & rest & -> & Hst) & H2 & He2 & He).
  destruct p as [lead id pre_eq post ds]. unfold parts_group1 in *.
  cbn [p_lead p_ident p_pre_eq p_post_eq p_digits] in *.
  assert (Hg : 0 < m_start2 m) by (rewrite H2; len_app).
  split; [done|]. split; [|split; [|lia]].
  - destruct (decide (post = [])) as [->|Hne].
    + exists "="%char. split; [|by left].
      replace (pre ++ assemble _ ++ rest)
        with ((pre ++ lead ++ id ++ pre_eq)
              ++ "="%char :: (ds ++ txt "," ++ rest))
        by (unfold assemble, parts_group1; by norm_app).
      apply list_lookup_middle. rewrite H2, Hst. len_app.
    + destruct (exists_last Hne) as (post' & c & ->). exists c. split.
      * replace (pre ++ assemble _ ++ rest)
          with ((pre ++ lead ++ id ++ pre_eq ++ txt "=" ++ post')
                ++ c :: (ds ++ txt "," ++ rest))
          by (unfold assemble, parts_group1; by norm_app).
        apply list_lookup_middle. rewrite H2, Hst. len_app.
      * right. unfold all_of in Hpost. rewrite forallb_app in Hpost.
        apply andb_prop in Hpost as [_ Hc]. cbn in Hc.
        by apply andb_prop in Hc as [-> _].
  - replace (pre ++ assemble _ ++ rest)
      with ((pre ++ lead ++ id ++ pre_eq ++ txt "=" ++ post ++ ds)
            ++ ","%char :: rest)
      by (unfold assemble, parts_group1; by norm_app).
    apply list_lookup_middle. rewrite He2, H2, Hst. len_app.
Qed.

(** X12.  A renumbering always raises the code: the number written over a
    repeated code is at least 2135 and greater than the code it
    replaces. *)
Theorem renumbering_raises_code (file : text) :
  Forall (λ r, ∃ c, code_of r.1 = Some c
                    ∧ (threshold ≤ c)%N ∧ (c < r.2)%N
                    ∧ (start_code ≤ r.2)%N)
    (replaced (finditer file) (init file)).
Proof.
  destruct (fix_error_codes_total file) as (st & P & _).
  exact (replaced_greater _ _ _ P (init_above_seen file)).
Qed.
